(** * org-to-anki: the markup-to-HTML transformer [htmlify] and [generate_id]

    A shallow embedding of [src/main.py].  Python strings are sequences of
    Unicode code points; the library functions the program calls
    ([str.lstrip], [html.escape], [re.sub], [str.split], [re.match],
    [str.strip]) are written out for the arguments the program passes them. *)

From Stdlib Require Import Ascii String.
From Stdlib Require Import List NArith Arith Bool Lia.
Import ListNotations.

Local Open Scope N_scope.
Local Open Scope list_scope.

(** ** Characters and strings *)

Definition char := N.
Definition str := list char.

Definition chr (a : ascii) : char := N_of_ascii a.
Definition lit (s : string) : str := map chr (list_ascii_of_string s).
Arguments chr a%_char.
Arguments lit s%_string.

Definition c_nl : char := 10.
Definition c_quot : char := 34.
Definition c_amp : char := Eval cbv in chr "&".
Definition c_apos : char := Eval cbv in chr "'".
Definition c_star : char := Eval cbv in chr "*".
Definition c_dash : char := Eval cbv in chr "-".
Definition c_slash : char := Eval cbv in chr "/".
Definition c_lt : char := Eval cbv in chr "<".
Definition c_eq : char := Eval cbv in chr "=".
Definition c_gt : char := Eval cbv in chr ">".
Definition c_sp : char := Eval cbv in chr " ".

(** [str.isspace] for one code point, which is also the class [\s] of [re]
    on [str] patterns (CPython's [Py_UNICODE_ISSPACE]). *)
Definition isspace (c : char) : bool :=
  ((0x09 <=? c) && (c <=? 0x0D)) || ((0x1C <=? c) && (c <=? 0x20))
  || (c =? 0x85) || (c =? 0xA0) || (c =? 0x1680)
  || ((0x2000 <=? c) && (c <=? 0x200A))
  || (c =? 0x2028) || (c =? 0x2029) || (c =? 0x202F) || (c =? 0x205F)
  || (c =? 0x3000).

Fixpoint drop_while (f : char -> bool) (s : str) : str :=
  match s with
  | x :: s' => if f x then drop_while f s' else s
  | [] => []
  end.

Fixpoint take_while (f : char -> bool) (s : str) : str :=
  match s with
  | x :: s' => if f x then x :: take_while f s' else []
  | [] => []
  end.

(** [text.lstrip("*")] *)
Definition lstrip_stars (s : str) : str := drop_while (N.eqb c_star) s.

(** [line.strip()] *)
Definition lstrip (s : str) : str := drop_while isspace s.
Definition rstrip (s : str) : str := rev (drop_while isspace (rev s)).
Definition strip (s : str) : str := rstrip (lstrip s).

(** [s.replace(c, r)] for a one-character [c] *)
Definition replace1 (c : char) (r : str) (s : str) : str :=
  flat_map (fun x => if x =? c then r else [x]) s.

(** [html.escape(s)], with its default [quote=True] *)
Definition escape (s : str) : str :=
  let s := replace1 c_amp (lit "&amp;") s in
  let s := replace1 c_lt (lit "&lt;") s in
  let s := replace1 c_gt (lit "&gt;") s in
  let s := replace1 c_quot (lit "&quot;") s in
  replace1 c_apos (lit "&#x27;") s.

(** [text.split("\n")]: never empty, one more piece than there are newlines *)
Fixpoint split_nl (s : str) : list str :=
  match s with
  | [] => [[]]
  | x :: s' =>
      if x =? c_nl then [] :: split_nl s'
      else match split_nl s' with
           | l :: ls => (x :: l) :: ls
           | [] => [[x]]
           end
  end.

(** ** The three substitution patterns

    Each call of [re.sub] in [htmlify] has a pattern of one shape: a literal,
    the group [([^c]+)], a literal; and a template that puts the group between
    two literals. *)

Record pattern := {
  p_open : str;     (* literal before the group *)
  p_excl : char;    (* the character the class [^c] excludes *)
  p_close : str;    (* literal after the group *)
  r_left : str;     (* template text before \1 *)
  r_right : str     (* template text after \1 *)
}.

(** r"/([^/]+)/" -> r" <em>\1</em> " *)
Definition em_pat : pattern :=
  {| p_open := lit "/"; p_excl := c_slash; p_close := lit "/";
     r_left := lit " <em>"; r_right := lit "</em> " |}.

(** r"\*([^\*]+)\*" -> r" <strong>\1</strong> " *)
Definition strong_pat : pattern :=
  {| p_open := lit "*"; p_excl := c_star; p_close := lit "*";
     r_left := lit " <strong>"; r_right := lit "</strong> " |}.

(** r" =([^=]+)= " -> r" <code>\1</code> " *)
Definition code_pat : pattern :=
  {| p_open := lit " ="; p_excl := c_eq; p_close := lit "= ";
     r_left := lit " <code>"; r_right := lit "</code> " |}.

(** Match a literal at the head of [s]; the rest of [s] after it. *)
Fixpoint strip_lit (l s : str) : option str :=
  match l, s with
  | [], _ => Some s
  | a :: l', x :: s' => if a =? x then strip_lit l' s' else None
  | _ :: _, [] => None
  end.

(** [[^c]*] followed by the literal [close]: greedy, and on failure the
    run gives characters back one at a time (backtracking).  Returns the run
    and what follows the closing literal. *)
Fixpoint match_run (c : char) (close : str) (s : str) : option (str * str) :=
  let stop := option_map (fun rest => ([], rest)) (strip_lit close s) in
  match s with
  | x :: s' =>
      if x =? c then stop
      else match match_run c close s' with
           | Some (run, rest) => Some (x :: run, rest)
           | None => stop
           end
  | [] => stop
  end.

(** The whole pattern at the head of [s]: group 1 and the text after the
    match. *)
Definition match_at (p : pattern) (s : str) : option (str * str) :=
  match strip_lit (p_open p) s with
  | Some (x :: s') =>
      if x =? p_excl p then None
      else match match_run (p_excl p) (p_close p) s' with
           | Some (run, rest) => Some (x :: run, rest)
           | None => None
           end
  | _ => None
  end.

(** [re.sub]: leftmost matches, not overlapping; text between matches is
    copied.  The fuel is the length of the text: every step consumes at least
    one character. *)
Fixpoint sub_fuel (fuel : nat) (p : pattern) (s : str) : str :=
  match fuel with
  | O => s
  | S n =>
      match s with
      | [] => []
      | x :: s' =>
          match match_at p s with
          | Some (run, rest) => r_left p ++ run ++ r_right p ++ sub_fuel n p rest
          | None => x :: sub_fuel n p s'
          end
      end
  end.

Definition sub (p : pattern) (s : str) : str := sub_fuel (length s) p s.

(** The three passes of [htmlify], in the order of the source. *)
Definition inline (s : str) : str := sub code_pat (sub strong_pat (sub em_pat s)).

(** ** Errors *)

Inductive failure := IndexError | AttributeError | OutOfFuel.

Inductive res (A : Type) :=
| Ok (a : A)
| Raise (e : failure).
Arguments Ok {A} a.
Arguments Raise {A} e.

Definition bind {A B} (m : res A) (k : A -> res B) : res B :=
  match m with
  | Ok a => k a
  | Raise e => Raise e
  end.

Notation "x <- m ;; k" := (bind m (fun x => k))
  (at level 61, m at next level, right associativity).

(** ** The line loop *)

(** [re.match(r"^(\s)*-", line)] is not [None] *)
Fixpoint is_list_item (line : str) : bool :=
  match line with
  | x :: s' => (isspace x && is_list_item s') || (x =? c_dash)
  | [] => false
  end.

(** [re.match(r"^\s*", line)]: the match object's group 0 *)
Definition match_leading_ws (line : str) : option str := Some (take_while isspace line).

(** [m.group(0)] raises [AttributeError] on [None] *)
Definition group0 (m : option str) : res str :=
  match m with
  | Some g => Ok g
  | None => Raise AttributeError
  end.

(** List Level Stack: the Python list, outermost level first *)
Record state := { list_levels : list nat; out_text : str }.

(** [list_levels[-1]] *)
Definition top (l : list nat) : res nat :=
  match l with
  | [] => Raise IndexError
  | _ => Ok (last l O)
  end.

(** [list_levels.pop()] *)
Definition pop (l : list nat) : res (list nat) :=
  match l with
  | [] => Raise IndexError
  | _ => Ok (removelast l)
  end.

Definition emit (st : state) (t : str) : state :=
  {| list_levels := list_levels st; out_text := out_text st ++ t |}.

(** [while len(list_levels) > 0: out_text += "</ul>"; list_levels.pop()] *)
Fixpoint drain_loop (fuel : nat) (st : state) : res state :=
  if (0 <? length (list_levels st))%nat then
    match fuel with
    | O => Raise OutOfFuel
    | S n =>
        let st := emit st (lit "</ul>") in
        l <- pop (list_levels st) ;;
        drain_loop n {| list_levels := l; out_text := out_text st |}
    end
  else Ok st.

Definition drain (st : state) : res state :=
  drain_loop (length (list_levels st)) st.

(** The [if]/[elif] on the stack for a list line of depth [level] *)
Definition adjust (st : state) (level : nat) : res state :=
  if (length (list_levels st) =? 0)%nat then
    Ok (emit {| list_levels := list_levels st ++ [level]; out_text := out_text st |}
             (lit "<ul>"))
  else
    t <- top (list_levels st) ;;
    if (t <? level)%nat then
      Ok (emit {| list_levels := list_levels st ++ [level]; out_text := out_text st |}
               (lit "<ul>"))
    else
      t <- top (list_levels st) ;;
      if (level <? t)%nat then
        let st := emit st (lit "</ul>") in
        l <- pop (list_levels st) ;;
        Ok {| list_levels := l; out_text := out_text st |}
      else Ok st.

(** The text of a list item: [line.strip()[1:]] *)
Definition item_text (line : str) : str := tl (strip line).

(** One iteration of [for line in text.split("\n")] *)
Definition step (st : state) (line : str) : res state :=
  st <- (if is_list_item line then
           g <- group0 (match_leading_ws line) ;;
           let level := length g in
           st <- adjust st level ;;
           Ok (emit st (lit "<li>" ++ item_text line ++ lit "</li>"))
         else
           st <- drain st ;;
           let st := emit st (strip line) in
           Ok (emit st (lit "<br>"))) ;;
  Ok (emit st [c_nl]).

Fixpoint loop (st : state) (lines : list str) : res state :=
  match lines with
  | [] => Ok st
  | line :: rest => st <- step st line ;; loop st rest
  end.

Definition render (text : str) : res str :=
  st <- loop {| list_levels := []; out_text := [] |} (split_nl text) ;;
  st <- drain st ;;
  Ok (out_text st).

(** [htmlify(text)] *)
Definition htmlify (text : str) : res str :=
  let text := lstrip_stars text in
  let text := escape text in
  let text := inline text in
  render text.

(** ** [generate_id] *)

(** What the program reads of an [orgparse] node. *)
Record node := {
  heading : str;
  body : str;
  level : nat;
  tags : list str;
  properties : list (str * str)
}.

Section GenerateId.
(** [uuid.uuid5] followed by [str]: the library's name-based UUID. *)
Variable namespace : Type.
Variable uuid5 : namespace -> str -> str.

Definition generate_id (ns : namespace) (n : node) : str := uuid5 ns (heading n).
End GenerateId.

(** ** Observations on the output *)

Fixpoint starts_with (pat s : str) : bool :=
  match pat, s with
  | [], _ => true
  | a :: pat', x :: s' => (a =? x) && starts_with pat' s'
  | _ :: _, [] => false
  end.

(** Number of positions of [s] at which [pat] occurs. *)
Fixpoint count (pat s : str) : nat :=
  match s with
  | [] => O
  | _ :: s' => ((if starts_with pat s then 1 else 0) + count pat s')%nat
  end.

Definition contains (pat s : str) : Prop := exists pre post, s = pre ++ pat ++ post.

Definition tag_ul : str := Eval cbv in lit "<ul>".
Definition tag_ul_end : str := Eval cbv in lit "</ul>".
Definition tag_code : str := Eval cbv in lit "<code>".

(** Depth of a list line: [len(re.match(r"^\s*", line).group(0))] *)
Definition depth (line : str) : nat := length (take_while isspace line).

(** [k] closing list tags in a row *)
Fixpoint closes (k : nat) : str :=
  match k with
  | O => []
  | S k' => tag_ul_end ++ closes k'
  end.

(** The three outcomes of the [if]/[elif]: open a level, close one, or leave
    the stack alone. *)
Inductive adjusted (st : state) (lv : nat) : state -> Prop :=
| adj_open :
    list_levels st = [] \/ (last (list_levels st) O < lv)%nat ->
    adjusted st lv {| list_levels := list_levels st ++ [lv];
                      out_text := out_text st ++ tag_ul |}
| adj_close :
    list_levels st <> [] -> (lv < last (list_levels st) O)%nat ->
    adjusted st lv {| list_levels := removelast (list_levels st);
                      out_text := out_text st ++ tag_ul_end |}
| adj_same :
    list_levels st <> [] -> last (list_levels st) O = lv ->
    adjusted st lv st.


(** ** Tags

    The only places a ["<"] can come from, once the text is escaped. *)

Definition em_tags : list str := Eval cbv in [lit "<em>"; lit "</em>"].
Definition strong_tags : list str := Eval cbv in [lit "<strong>"; lit "</strong>"].
Definition code_tags : list str := Eval cbv in [lit "<code>"; lit "</code>"].
Definition inline_tags : list str := Eval cbv in em_tags ++ strong_tags ++ code_tags.
Definition block_tags : list str :=
  Eval cbv in [lit "<ul>"; lit "</ul>"; lit "<li>"; lit "</li>"; lit "<br>"].

(** A text in which every ["<"] opens one of the tags of [T], written in
    full. *)
Inductive tagged (T : list str) : str -> Prop :=
| tagged_nil : tagged T []
| tagged_char x s : x <> c_lt -> tagged T s -> tagged T (x :: s)
| tagged_tag t s : In t T -> tagged T s -> tagged T (t ++ s).

(** [x] occurs in no tag of [T] *)
Definition clean (T : list str) (x : char) : Prop := forall t, In t T -> ~ In x t.

Definition cleanb (T : list str) (x : char) : bool :=
  forallb (fun t => negb (existsb (N.eqb x) t)) T.

(** ["\n".join(lines)] *)
Fixpoint join_nl (ls : list str) : str :=
  match ls with
  | [] => []
  | l :: ls' =>
      match ls' with
      | [] => l
      | _ :: _ => l ++ c_nl :: join_nl ls'
      end
  end.

(** What [html.escape] does to one character. *)
Definition esc1 (x : char) : str :=
  if x =? c_amp then lit "&amp;"
  else if x =? c_lt then lit "&lt;"
  else if x =? c_gt then lit "&gt;"
  else if x =? c_quot then lit "&quot;"
  else if x =? c_apos then lit "&#x27;"
  else [x].

(** Every tag the output can hold. *)
Definition all_tags : list str := Eval cbv in inline_tags ++ block_tags.

(** What the loop keeps true: the output is tagged, and it holds as many
    opening list tags as closing ones plus the levels still on the stack. *)
Definition balanced (st : state) : Prop :=
  tagged all_tags (out_text st)
  /\ count tag_ul (out_text st)
     = (count tag_ul_end (out_text st) + length (list_levels st))%nat.

(** A text that no pass can touch: not empty, without white space and
    without a character of a marker, and not starting with the hyphen of a
    list item. *)
Definition inert (w : str) : bool :=
  match w with
  | [] => false
  | y :: _ =>
      negb (y =? c_dash)
      && forallb (fun x => negb (isspace x || (x =? c_slash) || (x =? c_star)
                                 || (x =? c_eq))) w
  end.

(** How many times the character [c] occurs *)
Definition occ (c : char) (s : str) : nat := count_occ N.eq_dec s c.

(** ** Neighbouring characters *)

Definition headb (B : char -> bool) (s : str) : bool :=
  match s with
  | y :: _ => B y
  | [] => false
  end.

Fixpoint lastb (A : char -> bool) (s : str) : bool :=
  match s with
  | [] => false
  | x :: s' =>
      match s' with
      | [] => A x
      | _ :: _ => lastb A s'
      end
  end.

(** No character with [A] stands directly before a character with [B]. *)
Fixpoint nopairs (A B : char -> bool) (s : str) : bool :=
  match s with
  | x :: s' => negb (A x && headb B s') && nopairs A B s'
  | [] => true
  end.

(** A space, or one of the two markers whose replacement ends and starts
    with a space. *)
Definition spacing (x : char) : bool :=
  (x =? c_sp) || (x =? c_slash) || (x =? c_star).

Definition is_eq (x : char) : bool := x =? c_eq.
Definition is_sp (x : char) : bool := x =? c_sp.

(** A text on which [A] and [B] are false everywhere. *)
Definition quiet (A B : char -> bool) (e : str) : Prop :=
  Forall (fun c => A c = false /\ B c = false) e.

(** ** The stack of list levels *)

(** Each level on the stack is deeper than the one before it. *)
Fixpoint increasing (l : list nat) : Prop :=
  match l with
  | [] => True
  | x :: l' =>
      match l' with
      | [] => True
      | y :: _ => (x < y)%nat
      end /\ increasing l'
  end.

(** What the loop writes for one list line, and for one plain line. *)
Definition item_html (line : str) : str :=
  lit "<li>" ++ item_text line ++ lit "</li>" ++ [c_nl].

Definition plain_html (line : str) : str :=
  strip line ++ lit "<br>" ++ [c_nl].

(** The characters [html.escape] rewrites, and the three marker characters. *)
Definition escaped (x : char) : bool :=
  (x =? c_amp) || (x =? c_lt) || (x =? c_gt) || (x =? c_quot) || (x =? c_apos).

Definition marker (x : char) : bool :=
  (x =? c_slash) || (x =? c_star) || (x =? c_eq).

(** ** [main]: notes and identifiers *)

Fixpoint str_eqb (a b : str) : bool :=
  match a, b with
  | [], [] => true
  | x :: a', y :: b' => (x =? y) && str_eqb a' b'
  | _, _ => false
  end.

(** [d.get(key)] on a property dict, kept as the list of its items in
    insertion order. *)
Fixpoint get_property (key : str) (ps : list (str * str)) : option str :=
  match ps with
  | [] => None
  | (k, v) :: ps' => if str_eqb k key then Some v else get_property key ps'
  end.

(** [d[key] = val]: an existing key keeps its place, a new one goes last. *)
Fixpoint set_property (key val : str) (ps : list (str * str)) : list (str * str) :=
  match ps with
  | [] => [(key, val)]
  | (k, v) :: ps' =>
      if str_eqb k key then (k, val) :: ps' else (k, v) :: set_property key val ps'
  end.

Definition key_ID : str := Eval cbv in lit "ID".
Definition tag_no_export : str := Eval cbv in lit "no-export".

(** One element of [for node in org]: the root node or a heading node, with
    what [main] reads of it. *)
Record entry := {
  is_org_node : bool;        (* isinstance(node, orgparse.OrgNode) *)
  nd : node;
  raw_heading : str;         (* node.get_heading(format="raw") *)
  raw_body : str;            (* node.get_body(format="raw") *)
  shallow_tags : list str    (* node.shallow_tags *)
}.

(** [OrgUIDNote(model=model, fields=..., guid=...)]; the model is the same
    for every note.  [guid] is the argument of the constructor, which the
    assignment [self.guid = guid] stores through the setter of
    [genanki.Note]. *)
Record note := { fields : list str; guid : option str }.

Section Guid.
(** [genanki.guid_for], applied to the field values: their hash. *)
Variable guid_for : list str -> str.

(** Reading [note.guid], the property of [genanki.Note]: the stored guid,
    and the hash of the fields when [None] is stored. *)
Definition note_guid (n : note) : str :=
  match guid n with
  | Some g => g
  | None => guid_for (fields n)
  end.

(** [OrgUIDNote.guid_for_fields]: [return self.guid], whatever the fields
    it is given. *)
Definition guid_for_fields (n : note) (fs : list str) : str := note_guid n.
End Guid.

Definition with_properties (n : node) (ps : list (str * str)) : node :=
  {| heading := heading n; body := body n; level := level n; tags := tags n;
     properties := ps |}.

Definition with_node (e : entry) (n : node) : entry :=
  {| is_org_node := is_org_node e; nd := n; raw_heading := raw_heading e;
     raw_body := raw_body e; shallow_tags := shallow_tags e |}.

(** ["no-export" in node.tags] *)
Definition no_export (n : node) : bool := existsb (str_eqb tag_no_export) (tags n).

(** [node.get_property("ID") == "" or node.get_property("ID") is None] *)
Definition lacks_id (n : node) : bool :=
  match get_property key_ID (properties n) with
  | Some v => str_eqb v []
  | None => true
  end.

(** [sorted(node.tags)]: strings compare by code points. *)
Fixpoint str_leb (a b : str) : bool :=
  match a, b with
  | [], _ => true
  | _ :: _, [] => false
  | x :: a', y :: b' => if x <? y then true else if y <? x then false else str_leb a' b'
  end.

Fixpoint insert_sorted (s : str) (l : list str) : list str :=
  match l with
  | [] => [s]
  | t :: l' => if str_leb s t then s :: l else t :: insert_sorted s l'
  end.

Definition sorted (l : list str) : list str := fold_right insert_sorted [] l.

(** The text the rewrite loop writes for one node. *)
Definition rewrite_entry (e : entry) : str :=
  let n := nd e in
  (if is_org_node e then
     repeat c_star (level n) ++ lit " " ++ raw_heading e
     ++ (if (0 <? length (shallow_tags e))%nat then
           lit " " ++ concat (map (fun t => lit ":" ++ t) (sorted (tags n))) ++ lit ":"
         else [])
     ++ [c_nl]
   else [])
  ++ (if (0 <? length (properties n))%nat then
        lit ":PROPERTIES:" ++ [c_nl]
        ++ concat (map (fun kv : str * str =>
                          lit ":" ++ fst kv ++ lit ": "
                          ++ match get_property (fst kv) (properties n) with
                             | Some v => v
                             | None => lit "None"
                             end ++ [c_nl])
                       (properties n))
        ++ lit ":END:" ++ [c_nl]
      else [])
  ++ raw_body e ++ [c_nl].

Definition rewrite_text (org : list entry) : str := concat (map rewrite_entry org).

(** The text [htmlify] returns. *)
Definition html (s : str) : str :=
  match htmlify s with
  | Ok out => out
  | Raise _ => []
  end.

(** The nodes that get a note: headings not tagged [no-export] whose body
    is not empty. *)
Definition exported (e : entry) : bool :=
  is_org_node e && negb (no_export (nd e)) && negb (str_eqb (body (nd e)) []).

(** The note made of a node. *)
Definition note_of (e : entry) : note :=
  {| fields := [html (heading (nd e)); html (body (nd e))];
     guid := get_property key_ID (properties (nd e)) |}.

(** A node's [ID] property as text, empty when there is none. *)
Definition id_text (n : node) : str :=
  match get_property key_ID (properties n) with
  | Some v => v
  | None => []
  end.

Section Main.
Variable namespace : Type.
Variable uuid5 : namespace -> str -> str.
(** [uuid.NAMESPACE_DNS] *)
Variable NAMESPACE_DNS : namespace.

(** The body of [if args.create_ids:] *)
Definition assign_id (n : node) : node :=
  if lacks_id n then
    with_properties n
      (set_property key_ID (generate_id namespace uuid5 NAMESPACE_DNS n) (properties n))
  else n.

(** One iteration of the loop that fills the deck: the node as it is left,
    and the deck. *)
Definition export_entry (create_ids : bool) (deck : list note) (e : entry)
  : res (entry * list note) :=
  if is_org_node e then
    if no_export (nd e) then Ok (e, deck)
    else
      let n := if create_ids then assign_id (nd e) else nd e in
      let e := with_node e n in
      question <- htmlify (heading n) ;;
      answer <- htmlify (body n) ;;
      if str_eqb (body n) [] then Ok (e, deck)
      else
        Ok (e, deck ++ [{| fields := [question; answer];
                           guid := get_property key_ID (properties n) |}])
  else Ok (e, deck).

Fixpoint export_loop (create_ids : bool) (deck : list note) (org : list entry)
  : res (list entry * list note) :=
  match org with
  | [] => Ok ([], deck)
  | e :: rest =>
      r <- export_entry create_ids deck e ;;
      r' <- export_loop create_ids (snd r) rest ;;
      Ok (fst r :: fst r', snd r')
  end.

(** The node as the loop leaves it. *)
Definition kept (create_ids : bool) (e : entry) : entry :=
  if is_org_node e && negb (no_export (nd e)) then
    with_node e (if create_ids then assign_id (nd e) else nd e)
  else e.

(** [main] after the arguments are parsed and the file is loaded: the notes
    of the deck that is written, and the new text of the org file when
    [--rewrite_orgfile] is given. *)
Definition main_run (create_ids rewrite_orgfile : bool) (org : list entry)
  : res (list note * option str) :=
  r <- export_loop create_ids [] org ;;
  Ok (snd r, if rewrite_orgfile then Some (rewrite_text (fst r)) else None).
End Main.

(** ** A small document

    The root, a heading without identifier, an excluded heading, a heading
    without body and a heading that has its identifier; and a stand-in for
    the UUID generator. *)

Definition sample_uuid5 (ns : unit) (h : str) : str := lit "id-" ++ h.

Definition sample_root : entry :=
  {| is_org_node := false;
     nd := {| heading := []; body := lit "#+TITLE: Biology"; level := 0;
              tags := []; properties := [] |};
     raw_heading := []; raw_body := lit "#+TITLE: Biology"; shallow_tags := [] |}.

Definition sample_plain : entry :=
  {| is_org_node := true;
     nd := {| heading := lit "Photosynthesis"; body := lit "Light to /sugar/";
              level := 1; tags := []; properties := [] |};
     raw_heading := lit "Photosynthesis"; raw_body := lit "Light to /sugar/";
     shallow_tags := [] |}.

Definition sample_excluded : entry :=
  {| is_org_node := true;
     nd := {| heading := lit "Draft"; body := lit "later"; level := 1;
              tags := [lit "no-export"]; properties := [] |};
     raw_heading := lit "Draft"; raw_body := lit "later";
     shallow_tags := [lit "no-export"] |}.

Definition sample_no_body : entry :=
  {| is_org_node := true;
     nd := {| heading := lit "Chapter"; body := []; level := 1;
              tags := []; properties := [(lit "ID", [])] |};
     raw_heading := lit "Chapter"; raw_body := []; shallow_tags := [] |}.

Definition sample_with_id : entry :=
  {| is_org_node := true;
     nd := {| heading := lit "Mitosis"; body := lit "- prophase"; level := 2;
              tags := [lit "bio"]; properties := [(lit "ID", lit "abc")] |};
     raw_heading := lit "Mitosis"; raw_body := lit "- prophase";
     shallow_tags := [lit "bio"] |}.

Definition sample_org : list entry :=
  [sample_root; sample_plain; sample_excluded; sample_no_body; sample_with_id].

(** ** Entities *)

Definition c_semi : char := Eval cbv in chr ";".

(** How many characters of [s] [html.escape] rewrites. *)
Definition specials (s : str) : nat := length (filter escaped s).

(** ** Runs of a code pattern *)

(** A run the emphasis and strong passes cannot touch and which keeps its
    two delimiters to itself: not empty, without [/], [*] and [=], and with
    no space at either end. *)
Definition plain_run (r : str) : bool :=
  match r with
  | [] => false
  | _ :: _ =>
      negb (headb is_sp r) && negb (lastb is_sp r)
      && forallb (fun x => negb (marker x)) r
  end.

(** * Properties *)

(** ** Literals and the group *)

Lemma strip_lit_sound l : forall s r, strip_lit l s = Some r -> s = l ++ r.
Proof.
  induction l as [|a l IH]; intros s r H; simpl in *.
  - now inversion H.
  - destruct s as [|x s]; [discriminate|].
    destruct (N.eqb_spec a x); [|discriminate].
    subst. f_equal. now apply IH.
Qed.

Lemma strip_lit_complete l r : strip_lit l (l ++ r) = Some r.
Proof.
  induction l as [|a l IH]; simpl; [reflexivity|].
  now rewrite N.eqb_refl.
Qed.

Lemma match_run_sound c close : forall s run rest,
  match_run c close s = Some (run, rest) ->
  s = run ++ close ++ rest /\ Forall (fun x => x <> c) run.
Proof.
  assert (Hstop : forall s run rest,
    option_map (fun r => (@nil char, r)) (strip_lit close s) = Some (run, rest) ->
    s = run ++ close ++ rest /\ Forall (fun x => x <> c) run).
  { intros s run rest H. destruct (strip_lit close s) eqn:E; [|discriminate].
    inversion H; subst. apply strip_lit_sound in E. now split. }
  induction s as [|x s IH]; intros run rest H.
  - now apply Hstop.
  - cbn [match_run] in H. destruct (N.eqb_spec x c).
    + now apply Hstop.
    + destruct (match_run c close s) as [[run' rest']|] eqn:E.
      * inversion H; subst. destruct (IH _ _ eq_refl) as [-> Hf].
        split; [reflexivity|]. now constructor.
      * now apply Hstop.
Qed.

Lemma match_run_complete c cl run rest :
  Forall (fun x => x <> c) run ->
  match_run c (c :: cl) (run ++ (c :: cl) ++ rest) = Some (run, rest).
Proof.
  induction 1 as [|x run Hx _ IH].
  - cbn [app match_run]. rewrite N.eqb_refl.
    change (c :: cl ++ rest) with ((c :: cl) ++ rest).
    now rewrite strip_lit_complete.
  - cbn [app match_run]. destruct (N.eqb_spec x c); [contradiction|].
    cbn [app] in IH. now rewrite IH.
Qed.

Lemma match_at_sound p s run rest :
  match_at p s = Some (run, rest) ->
  s = p_open p ++ run ++ p_close p ++ rest
  /\ run <> [] /\ Forall (fun x => x <> p_excl p) run.
Proof.
  unfold match_at. intros H.
  destruct (strip_lit (p_open p) s) as [[|x s']|] eqn:E; try discriminate.
  apply strip_lit_sound in E.
  destruct (N.eqb_spec x (p_excl p)); [discriminate|].
  destruct (match_run (p_excl p) (p_close p) s') as [[run' rest']|] eqn:E';
    [|discriminate].
  inversion H; subst. apply match_run_sound in E'. destruct E' as [-> Hf].
  repeat split; [discriminate | now constructor].
Qed.

Lemma match_at_complete p cl run rest :
  p_close p = p_excl p :: cl ->
  run <> [] -> Forall (fun x => x <> p_excl p) run ->
  match_at p (p_open p ++ run ++ p_close p ++ rest) = Some (run, rest).
Proof.
  intros Hc Hne Hf. unfold match_at. rewrite strip_lit_complete.
  destruct run as [|x run]; [contradiction|]. inversion Hf; subst.
  cbn [app]. destruct (N.eqb_spec x (p_excl p)); [contradiction|].
  rewrite Hc. now rewrite match_run_complete.
Qed.

Lemma match_at_shorter p s run rest :
  match_at p s = Some (run, rest) -> (length rest < length s)%nat.
Proof.
  intros H. apply match_at_sound in H. destruct H as (-> & Hne & _).
  destruct run; [contradiction|]. rewrite !length_app. simpl. lia.
Qed.

(** ** [re.sub]: the fuel is enough *)

Lemma sub_fuel_enough p : forall n m s,
  (length s <= n)%nat -> (length s <= m)%nat -> sub_fuel n p s = sub_fuel m p s.
Proof.
  induction n as [|n IH]; intros m s Hn Hm.
  - destruct s; [|simpl in Hn; lia]. now destruct m.
  - destruct m as [|m].
    + destruct s; [reflexivity|simpl in Hm; lia].
    + destruct s as [|x s]; [reflexivity|]. cbn [sub_fuel].
      destruct (match_at p (x :: s)) as [[run rest]|] eqn:E.
      * apply match_at_shorter in E. simpl in *.
        rewrite (IH m rest) by lia. reflexivity.
      * simpl in *. rewrite (IH m s) by lia. reflexivity.
Qed.

Lemma sub_nil p : sub p [] = [].
Proof. reflexivity. Qed.

Lemma sub_match p s run rest :
  match_at p s = Some (run, rest) ->
  sub p s = r_left p ++ run ++ r_right p ++ sub p rest.
Proof.
  intros E. unfold sub. destruct s as [|x s].
  - apply match_at_shorter in E. simpl in E. lia.
  - cbn [length sub_fuel]. rewrite E.
    pose proof (match_at_shorter _ _ _ _ E) as Hl. simpl in Hl.
    rewrite (sub_fuel_enough p (length s) (length rest) rest) by lia.
    reflexivity.
Qed.

Lemma sub_skip p x s :
  match_at p (x :: s) = None -> sub p (x :: s) = x :: sub p s.
Proof.
  intros E. unfold sub. cbn [length sub_fuel]. now rewrite E.
Qed.

(** Induction that follows [re.sub]: the empty text, a character copied, a
    match replaced. *)
Lemma sub_rect' p (P : str -> str -> Prop) :
  P [] [] ->
  (forall x s, match_at p (x :: s) = None ->
     P s (sub p s) -> P (x :: s) (x :: sub p s)) ->
  (forall s run rest, match_at p s = Some (run, rest) ->
     P rest (sub p rest) -> P s (r_left p ++ run ++ r_right p ++ sub p rest)) ->
  forall s, P s (sub p s).
Proof.
  intros Hnil Hskip Hmatch s.
  remember (length s) as n eqn:Hn.
  revert s Hn. induction n as [n IH] using lt_wf_ind. intros s Hn.
  destruct s as [|x s]; [exact Hnil|].
  destruct (match_at p (x :: s)) as [[run rest]|] eqn:E.
  - rewrite (sub_match _ _ _ _ E). apply Hmatch; [exact E|].
    apply (IH (length rest)); [|reflexivity].
    apply match_at_shorter in E. lia.
  - rewrite (sub_skip _ _ _ E). apply Hskip; [exact E|].
    apply (IH (length s)); [|reflexivity]. simpl in Hn. lia.
Qed.

Lemma Ok_inj A (a b : A) : Ok a = Ok b -> a = b.
Proof. now intros [= ->]. Qed.

(** ** The stack operations never fail where the loop uses them *)

Lemma length_removelast (l : list nat) :
  l <> [] -> length l = S (length (removelast l)).
Proof.
  intros H. rewrite (app_removelast_last 0%nat H) at 1. apply last_length.
Qed.

Lemma drain_loop_nil n st : list_levels st = [] -> drain_loop n st = Ok st.
Proof. destruct st as [l out]; cbn. intros ->. now destruct n. Qed.

Lemma drain_loop_S n st :
  list_levels st <> [] ->
  drain_loop (S n) st =
    drain_loop n {| list_levels := removelast (list_levels st);
                    out_text := out_text st ++ tag_ul_end |}.
Proof. destruct st as [[|a l] out]; cbn [list_levels]; [contradiction|reflexivity]. Qed.

Lemma drain_loop_ok : forall n st,
  (length (list_levels st) <= n)%nat ->
  drain_loop n st =
    Ok {| list_levels := [];
          out_text := out_text st ++ closes (length (list_levels st)) |}.
Proof.
  induction n as [|n IH]; intros st Hn.
  - destruct st as [[|a l] out]; cbn [list_levels] in Hn; [|simpl in Hn; lia].
    cbn. now rewrite app_nil_r.
  - destruct st as [[|a l] out].
    + rewrite drain_loop_nil by reflexivity. cbn. now rewrite app_nil_r.
    + set (l0 := a :: l) in *. assert (Hne : l0 <> []) by discriminate.
      rewrite drain_loop_S by exact Hne. cbn [list_levels out_text] in *.
      pose proof (length_removelast l0 Hne) as Hl.
      rewrite IH; cbn [list_levels out_text].
      * rewrite Hl. cbn [closes]. now rewrite <- app_assoc.
      * lia.
Qed.

Lemma drain_ok st :
  drain st =
    Ok {| list_levels := [];
          out_text := out_text st ++ closes (length (list_levels st)) |}.
Proof. unfold drain. now apply drain_loop_ok. Qed.

Lemma adjust_ok st lv : exists st', adjust st lv = Ok st' /\ adjusted st lv st'.
Proof.
  destruct st as [l out]. unfold adjust. cbn [list_levels out_text emit].
  destruct l as [|a l].
  - eexists; split; [reflexivity|]. apply (adj_open {| list_levels := [] |}). now left.
  - cbn [length Nat.eqb top pop bind].
    set (l0 := a :: l). assert (Hne : l0 <> []) by discriminate.
    destruct (Nat.ltb_spec (last l0 O) lv).
    + eexists; split; [reflexivity|].
      apply (adj_open {| list_levels := l0 |}). now right.
    + destruct (Nat.ltb_spec lv (last l0 O)).
      * eexists; split; [reflexivity|].
        now apply (adj_close {| list_levels := l0 |}).
      * eexists; split; [reflexivity|].
        apply adj_same; cbn [list_levels]; [exact Hne | lia].
Qed.

Lemma step_item st line :
  is_list_item line = true ->
  exists st', adjusted st (depth line) st' /\
    step st line =
      Ok {| list_levels := list_levels st';
            out_text := out_text st' ++ lit "<li>" ++ item_text line
                          ++ lit "</li>" ++ [c_nl] |}.
Proof.
  intros H. unfold step. rewrite H.
  cbn [match_leading_ws group0 bind].
  destruct (adjust_ok st (depth line)) as (st' & E & Hadj).
  unfold depth in E. rewrite E. cbn [bind emit list_levels out_text].
  exists st'. split; [exact Hadj|].
  unfold emit. cbn [list_levels out_text]. now rewrite <- !app_assoc.
Qed.

Lemma step_plain st line :
  is_list_item line = false ->
  step st line =
    Ok {| list_levels := [];
          out_text := out_text st ++ closes (length (list_levels st))
                        ++ strip line ++ lit "<br>" ++ [c_nl] |}.
Proof.
  intros H. unfold step. rewrite H, drain_ok.
  unfold emit. cbn [bind list_levels out_text].
  now rewrite <- !app_assoc.
Qed.

Lemma step_total st line : exists st', step st line = Ok st'.
Proof.
  destruct (is_list_item line) eqn:E.
  - destruct (step_item st line E) as (st' & _ & H). eauto.
  - rewrite (step_plain st line E). eauto.
Qed.

Lemma loop_total : forall lines st, exists st', loop st lines = Ok st'.
Proof.
  induction lines as [|line lines IH]; intros st; cbn [loop].
  - eauto.
  - destruct (step_total st line) as [st' ->]. cbn [bind]. apply IH.
Qed.

Lemma render_total text : exists out, render text = Ok out.
Proof.
  unfold render.
  destruct (loop_total (split_nl text) {| list_levels := []; out_text := [] |})
    as [st ->].
  cbn [bind]. rewrite drain_ok. cbn [bind]. eauto.
Qed.

Lemma htmlify_returns text : exists out, htmlify text = Ok out.
Proof. unfold htmlify. apply render_total. Qed.

(** ** Tagged texts *)

Lemma tagged_app T a b : tagged T a -> tagged T b -> tagged T (a ++ b).
Proof.
  induction 1 as [|x s Hx _ IH|t s Ht _ IH]; intros Hb; cbn [app].
  - exact Hb.
  - constructor; auto.
  - rewrite <- app_assoc. constructor; auto.
Qed.

Lemma tagged_mono T T' s : incl T T' -> tagged T s -> tagged T' s.
Proof.
  intros Hi. induction 1; [constructor | constructor; auto |].
  apply tagged_tag; auto.
Qed.

Lemma tagged_plain T s : Forall (fun x => x <> c_lt) s -> tagged T s.
Proof. induction 1; constructor; auto. Qed.

Lemma tagged_one T t : In t T -> tagged T t.
Proof.
  intros H. rewrite <- (app_nil_r t). apply tagged_tag; [exact H | constructor].
Qed.

Lemma cleanb_clean T x : cleanb T x = true -> clean T x.
Proof.
  unfold cleanb, clean. rewrite forallb_forall. intros H t Ht Hx.
  specialize (H t Ht). apply negb_true_iff in H.
  assert (existsb (N.eqb x) t = true); [|congruence].
  apply existsb_exists. exists x. split; [exact Hx | apply N.eqb_refl].
Qed.

Lemma clean_incl T T' x : incl T T' -> clean T' x -> clean T x.
Proof. intros Hi Hc t Ht. apply Hc. now apply Hi. Qed.

Lemma clean_nil x : clean [] x.
Proof. intros t []. Qed.

Lemma clean_space T x :
  Forall (fun c => isspace c = false) (concat T) -> isspace x = true -> clean T x.
Proof.
  intros Hf Hx t Ht Hin. rewrite Forall_forall in Hf.
  assert (isspace x = false); [|congruence].
  apply Hf. apply in_concat. now exists t.
Qed.

(** A tag that does not hold [x] ends before [x] does. *)
Lemma app_eq_across (t : str) x : forall s a b,
  t ++ s = a ++ x :: b -> ~ In x t ->
  exists a', a = t ++ a' /\ s = a' ++ x :: b.
Proof.
  induction t as [|c t IH]; intros s a b E Hx; cbn [app] in *.
  - now exists a.
  - destruct a as [|c' a]; cbn [app] in E; inversion E; subst.
    + exfalso. apply Hx. now left.
    + destruct (IH _ _ _ H1) as (a' & -> & ->).
      * intros Hin. apply Hx. now right.
      * now exists a'.
Qed.

(** Cutting a tagged text at a clean character leaves two tagged texts. *)
Lemma tagged_cut T x a b :
  clean T x -> tagged T (a ++ x :: b) -> tagged T a /\ tagged T b.
Proof.
  intros Hc H. remember (a ++ x :: b) as s eqn:Es. revert a Es.
  induction H as [|y s Hy H IH|t s Ht H IH]; intros a Es.
  - now destruct a.
  - destruct a as [|y' a]; cbn [app] in Es; inversion Es; subst.
    + split; [constructor | exact H].
    + destruct (IH a eq_refl) as [Ha Hb]. split; [now constructor | exact Hb].
  - destruct (app_eq_across _ _ _ _ _ Es (Hc t Ht)) as (a' & -> & ->).
    destruct (IH a' eq_refl) as [Ha Hb]. split; [now apply tagged_tag | exact Hb].
Qed.

Lemma tagged_cut_lit T d : d <> [] -> Forall (clean T) d ->
  forall a b, tagged T (a ++ d ++ b) -> tagged T a /\ tagged T b.
Proof.
  induction d as [|x d IH]; intros Hne Hc a b H; [contradiction|].
  inversion Hc; subst. cbn [app] in H.
  destruct (tagged_cut _ _ _ _ H2 H) as [Ha Hd]. split; [exact Ha|].
  destruct d as [|y d]; [exact Hd|].
  apply (IH ltac:(discriminate) H3 [] b Hd).
Qed.

(** [re.sub] keeps a tagged text tagged, when the pattern's literals are
    clean and the template is tagged itself. *)
Lemma sub_tagged p T T' :
  incl T T' ->
  p_open p <> [] -> p_close p <> [] ->
  Forall (clean T) (p_open p) -> Forall (clean T) (p_close p) ->
  tagged T' (r_left p) -> tagged T' (r_right p) ->
  forall s, tagged T s -> tagged T' (sub p s).
Proof.
  intros Hi Ho Hc Hco Hcc Hl Hr s.
  enough (H : forall k, tagged T (k ++ s) -> tagged T' (k ++ sub p s))
    by (apply (H [])).
  apply (sub_rect' p (fun s out => forall k, tagged T (k ++ s) -> tagged T' (k ++ out))).
  - intros k H. now apply (tagged_mono T).
  - intros x s0 _ IH k H.
    change (k ++ x :: sub p s0) with (k ++ [x] ++ sub p s0).
    rewrite app_assoc. apply IH. rewrite <- app_assoc. exact H.
  - intros s0 run rest E IH k H.
    apply match_at_sound in E. destruct E as (-> & _ & _).
    destruct (tagged_cut_lit T _ Ho Hco _ _ H) as [Hk H1].
    destruct (tagged_cut_lit T _ Hc Hcc _ _ H1) as [Hrun Hrest].
    apply tagged_app; [now apply (tagged_mono T)|].
    apply tagged_app; [exact Hl|].
    apply tagged_app; [now apply (tagged_mono T)|].
    apply tagged_app; [exact Hr|].
    apply (IH [] Hrest).
Qed.

(** ** [html.escape] *)

Lemma replace1_app c r a b : replace1 c r (a ++ b) = replace1 c r a ++ replace1 c r b.
Proof. unfold replace1. apply flat_map_app. Qed.

Lemma escape_app a b : escape (a ++ b) = escape a ++ escape b.
Proof. unfold escape. now rewrite !replace1_app. Qed.

Lemma escape_one x : escape [x] = esc1 x.
Proof.
  unfold esc1.
  destruct (N.eqb_spec x c_amp) as [->|H1]; [reflexivity|].
  destruct (N.eqb_spec x c_lt) as [->|H2]; [reflexivity|].
  destruct (N.eqb_spec x c_gt) as [->|H3]; [reflexivity|].
  destruct (N.eqb_spec x c_quot) as [->|H4]; [reflexivity|].
  destruct (N.eqb_spec x c_apos) as [->|H5]; [reflexivity|].
  apply N.eqb_neq in H1, H2, H3, H4, H5.
  unfold escape, replace1. cbn [flat_map app].
  rewrite H1. cbn [flat_map app]. rewrite H2. cbn [flat_map app].
  rewrite H3. cbn [flat_map app]. rewrite H4. cbn [flat_map app].
  now rewrite H5.
Qed.

Lemma escape_cons x s : escape (x :: s) = esc1 x ++ escape s.
Proof.
  change (x :: s) with ([x] ++ s). now rewrite escape_app, escape_one.
Qed.

(** A property of characters that the five entities have and that [escape]
    leaves alone on the other characters holds of the whole escaped text. *)
Lemma escape_Forall (P : char -> Prop) :
  Forall P (lit "&amp;") -> Forall P (lit "&lt;") -> Forall P (lit "&gt;") ->
  Forall P (lit "&quot;") -> Forall P (lit "&#x27;") ->
  (forall x, esc1 x = [x] -> P x) ->
  forall s, Forall P (escape s).
Proof.
  intros Ha Hl Hg Hq Hp Hx. induction s as [|x s IH]; [constructor|].
  rewrite escape_cons. apply Forall_app. split; [|exact IH].
  pose proof (Hx x) as Hx'. unfold esc1 in *.
  destruct (x =? c_amp); [exact Ha|]. destruct (x =? c_lt); [exact Hl|].
  destruct (x =? c_gt); [exact Hg|]. destruct (x =? c_quot); [exact Hq|].
  destruct (x =? c_apos); [exact Hp|]. constructor; auto.
Qed.

Lemma esc1_self_neq x c :
  esc1 x = [x] -> (c = c_lt \/ c = c_gt) -> x <> c.
Proof.
  unfold esc1. intros H Hc ->.
  destruct Hc as [-> | ->]; vm_compute in H; discriminate.
Qed.

Lemma escape_no_lt s : Forall (fun x => x <> c_lt) (escape s).
Proof.
  apply escape_Forall; try (repeat constructor; discriminate).
  intros x H. apply (esc1_self_neq x c_lt H). now left.
Qed.

Lemma escape_tagged T s : tagged T (escape s).
Proof. apply tagged_plain, escape_no_lt. Qed.

(** ** Lines *)

Lemma split_nl_nonempty s : split_nl s <> [].
Proof.
  destruct s as [|x s]; cbn [split_nl]; [discriminate|].
  destruct (x =? c_nl); [discriminate|]. destruct (split_nl s); discriminate.
Qed.

Lemma split_nl_join s : join_nl (split_nl s) = s.
Proof.
  induction s as [|x s IH]; [reflexivity|]. cbn [split_nl].
  pose proof (split_nl_nonempty s) as Hne.
  destruct (N.eqb_spec x c_nl) as [->|Hx].
  - destruct (split_nl s) as [|l ls]; [contradiction|].
    cbn [join_nl app] in *. now rewrite IH.
  - destruct (split_nl s) as [|l ls]; [contradiction|].
    cbn [join_nl] in *. destruct ls; cbn [app]; now rewrite IH.
Qed.

Lemma tagged_join T ls :
  clean T c_nl -> tagged T (join_nl ls) -> Forall (tagged T) ls.
Proof.
  intros Hc. induction ls as [|l ls IH]; intros H; [constructor|].
  cbn [join_nl] in H. destruct ls as [|l' ls].
  - repeat constructor. exact H.
  - destruct (tagged_cut _ _ _ _ Hc H) as [Hl Hr]. constructor; auto.
Qed.

Lemma tagged_lines T s :
  clean T c_nl -> tagged T s -> Forall (tagged T) (split_nl s).
Proof.
  intros Hc H. apply tagged_join; [exact Hc|]. now rewrite split_nl_join.
Qed.

(** ** [strip] *)

Lemma drop_while_snoc f x : forall r,
  f x = false -> drop_while f (r ++ [x]) = drop_while f r ++ [x].
Proof.
  induction r as [|y r IH]; intros Hx; cbn [app drop_while].
  - now rewrite Hx.
  - destruct (f y); [now apply IH | reflexivity].
Qed.

Lemma rstrip_cons x s : isspace x = false -> rstrip (x :: s) = x :: rstrip s.
Proof.
  intros Hx. unfold rstrip. cbn [rev].
  rewrite drop_while_snoc by exact Hx. now rewrite rev_unit.
Qed.

(** A list line, trimmed, starts with its hyphen: [item_text] drops exactly
    that. *)
Lemma strip_item line :
  is_list_item line = true -> strip line = c_dash :: item_text line.
Proof.
  unfold item_text, strip, lstrip.
  induction line as [|x s IH]; cbn [is_list_item drop_while]; [discriminate|].
  intros H. destruct (isspace x) eqn:Ex.
  - cbn [andb] in H. apply orb_true_iff in H. destruct H as [H|H]; [now apply IH|].
    apply N.eqb_eq in H. subst. vm_compute in Ex. discriminate.
  - cbn [andb orb] in H. apply N.eqb_eq in H. subst x.
    now rewrite rstrip_cons by reflexivity.
Qed.

Lemma lstrip_tagged T s :
  (forall x, isspace x = true -> clean T x) -> tagged T s -> tagged T (lstrip s).
Proof.
  intros Hc. unfold lstrip. induction s as [|x s IH]; intros H; [exact H|].
  cbn [drop_while]. destruct (isspace x) eqn:Ex; [|exact H].
  apply IH. apply (tagged_cut T x [] s (Hc x Ex) H).
Qed.

Lemma rstrip_tagged T s :
  (forall x, isspace x = true -> clean T x) -> tagged T s -> tagged T (rstrip s).
Proof.
  intros Hc. unfold rstrip. rewrite <- (rev_involutive s) at 1.
  generalize (rev s) as r. induction r as [|x r IH]; intros H; [exact H|].
  cbn [drop_while]. destruct (isspace x) eqn:Ex; [|exact H].
  apply IH. cbn [rev] in H. apply (tagged_cut T x (rev r) [] (Hc x Ex) H).
Qed.

Lemma strip_tagged T s :
  (forall x, isspace x = true -> clean T x) -> tagged T s -> tagged T (strip s).
Proof. intros Hc H. now apply rstrip_tagged, lstrip_tagged. Qed.

Lemma item_text_tagged T line :
  (forall x, isspace x = true -> clean T x) -> clean T c_dash ->
  is_list_item line = true -> tagged T line -> tagged T (item_text line).
Proof.
  intros Hc Hd Hi H. apply (strip_tagged T line Hc) in H.
  rewrite (strip_item line Hi) in H.
  apply (tagged_cut T c_dash [] _ Hd H).
Qed.

(** ** Counting tags in tagged texts *)

Lemma count_app_tagged T pat :
  (forall x s, x <> c_lt -> starts_with pat (x :: s) = false) ->
  (forall t, In t T -> forall s, count pat (t ++ s) = (count pat t + count pat s)%nat) ->
  forall a, tagged T a ->
  forall b, count pat (a ++ b) = (count pat a + count pat b)%nat.
Proof.
  intros Hlt Htag a H. induction H as [|x s Hx _ IH|t s Ht _ IH]; intros b.
  - reflexivity.
  - cbn [app count]. rewrite !Hlt by exact Hx. apply IH.
  - rewrite <- app_assoc.
    rewrite (Htag t Ht (s ++ b)), (Htag t Ht s), IH. lia.
Qed.

Lemma count_zero_tagged T pat :
  (forall x s, x <> c_lt -> starts_with pat (x :: s) = false) ->
  (forall t, In t T -> forall s, count pat (t ++ s) = count pat s) ->
  forall a, tagged T a -> count pat a = O.
Proof.
  intros Hlt Htag a H. induction H as [|x s Hx _ IH|t s Ht _ IH].
  - reflexivity.
  - cbn [count]. now rewrite Hlt.
  - now rewrite Htag.
Qed.

Lemma starts_with_lt pat x s :
  x <> c_lt -> starts_with (c_lt :: pat) (x :: s) = false.
Proof.
  intros Hx. cbn [starts_with]. destruct (N.eqb_spec c_lt x); [congruence|reflexivity].
Qed.

(** Each tag in turn, by computation on its characters. *)
Ltac each_tag Ht :=
  repeat (destruct Ht as [<-|Ht]; [intros; reflexivity|]); contradiction.

Lemma count_ul_app a b :
  tagged all_tags a -> count tag_ul (a ++ b) = (count tag_ul a + count tag_ul b)%nat.
Proof.
  intros H. revert b. apply (count_app_tagged all_tags); [| |exact H].
  - intros x s. apply starts_with_lt.
  - intros t Ht. each_tag Ht.
Qed.

Lemma count_ul_end_app a b :
  tagged all_tags a ->
  count tag_ul_end (a ++ b) = (count tag_ul_end a + count tag_ul_end b)%nat.
Proof.
  intros H. revert b. apply (count_app_tagged all_tags); [| |exact H].
  - intros x s. apply starts_with_lt.
  - intros t Ht. each_tag Ht.
Qed.

Lemma count_ul_inline a : tagged inline_tags a -> count tag_ul a = O.
Proof.
  apply (count_zero_tagged inline_tags).
  - intros x s. apply starts_with_lt.
  - intros t Ht. each_tag Ht.
Qed.

Lemma count_ul_end_inline a : tagged inline_tags a -> count tag_ul_end a = O.
Proof.
  apply (count_zero_tagged inline_tags).
  - intros x s. apply starts_with_lt.
  - intros t Ht. each_tag Ht.
Qed.

(** ** Characters that no tag holds *)

Lemma inline_incl_all : incl inline_tags all_tags.
Proof. intros t Ht. cbv in Ht |- *. tauto. Qed.

Lemma block_incl_all : incl block_tags all_tags.
Proof. intros t Ht. cbv in Ht |- *. tauto. Qed.

Lemma space_clean_all x : isspace x = true -> clean all_tags x.
Proof. apply clean_space. repeat constructor. Qed.

Lemma space_clean T x : incl T all_tags -> isspace x = true -> clean T x.
Proof. intros Hi Hx. apply (clean_incl T all_tags); [exact Hi | now apply space_clean_all]. Qed.

Lemma clean_all T x : incl T all_tags -> cleanb all_tags x = true -> clean T x.
Proof. intros Hi Hx. apply (clean_incl T all_tags); [exact Hi | now apply cleanb_clean]. Qed.

(** ** The three passes keep the text tagged *)

Lemma em_tagged T s :
  incl em_tags T -> tagged [] s -> tagged T (sub em_pat s).
Proof.
  intros Hi. apply sub_tagged; try discriminate.
  - intros t [].
  - repeat constructor; apply clean_nil.
  - repeat constructor; apply clean_nil.
  - apply tagged_char; [discriminate|]. apply tagged_one, Hi. cbv. tauto.
  - apply (tagged_tag T (lit "</em>") [c_sp]);
      [apply Hi; cbv; tauto | repeat constructor; discriminate].
Qed.

Lemma strong_tagged T T' s :
  incl T T' -> incl T all_tags -> incl strong_tags T' ->
  tagged T s -> tagged T' (sub strong_pat s).
Proof.
  intros Hi Ha Hs. apply sub_tagged; try discriminate; try exact Hi.
  - repeat constructor. now apply clean_all.
  - repeat constructor. now apply clean_all.
  - apply tagged_char; [discriminate|]. apply tagged_one, Hs. cbv. tauto.
  - apply (tagged_tag T' (lit "</strong>") [c_sp]);
      [apply Hs; cbv; tauto | repeat constructor; discriminate].
Qed.

Lemma code_tagged T T' s :
  incl T T' -> incl T all_tags -> incl code_tags T' ->
  tagged T s -> tagged T' (sub code_pat s).
Proof.
  intros Hi Ha Hs. apply sub_tagged; try discriminate; try exact Hi.
  - repeat constructor; now apply clean_all.
  - repeat constructor; now apply clean_all.
  - apply tagged_char; [discriminate|]. apply tagged_one, Hs. cbv. tauto.
  - apply (tagged_tag T' (lit "</code>") [c_sp]);
      [apply Hs; cbv; tauto | repeat constructor; discriminate].
Qed.

Lemma inline_tagged s : tagged inline_tags (inline (escape s)).
Proof.
  unfold inline.
  apply (code_tagged (em_tags ++ strong_tags) inline_tags);
    [| | |apply (strong_tagged em_tags); [| | |apply em_tagged; [|apply escape_tagged]]];
    intros t Ht; cbv in Ht |- *; tauto.
Qed.

(** ** The line loop keeps the output tagged *)

Section Loop.
Variable T : list str.
Hypothesis T_all : incl T all_tags.

Lemma out_tags_all : incl (T ++ block_tags) all_tags.
Proof. apply incl_app; [exact T_all | exact block_incl_all]. Qed.

Lemma block_tag_ok t : In t block_tags -> tagged (T ++ block_tags) t.
Proof. intros H. apply tagged_one, in_or_app. now right. Qed.

Lemma line_ok s : tagged T s -> tagged (T ++ block_tags) s.
Proof. apply tagged_mono. now apply incl_appl. Qed.

Lemma closes_tagged k : tagged (T ++ block_tags) (closes k).
Proof.
  induction k as [|k IH]; cbn [closes]; [constructor|].
  apply tagged_app; [|exact IH]. apply block_tag_ok. cbv. tauto.
Qed.

Lemma step_tagged st line st' :
  tagged T line -> tagged (T ++ block_tags) (out_text st) ->
  step st line = Ok st' -> tagged (T ++ block_tags) (out_text st').
Proof.
  intros Hl Ho E.
  assert (Hsp : forall x, isspace x = true -> clean T x)
    by (intros x Hx; now apply space_clean).
  assert (Hnl : tagged (T ++ block_tags) [c_nl]) by (repeat constructor; discriminate).
  destruct (is_list_item line) eqn:Ei.
  - destruct (step_item st line Ei) as (st1 & Hadj & E1).
    rewrite E1 in E. apply Ok_inj in E. subst st'. cbn [out_text].
    apply tagged_app.
    + inversion Hadj; subst; cbn [out_text]; try exact Ho;
        (apply tagged_app; [exact Ho | apply block_tag_ok; cbv; tauto]).
    + apply tagged_app; [apply block_tag_ok; cbv; tauto|].
      apply tagged_app.
      * apply line_ok, item_text_tagged; auto. now apply clean_all.
      * apply tagged_app; [apply block_tag_ok; cbv; tauto | exact Hnl].
  - rewrite (step_plain st line Ei) in E. apply Ok_inj in E. subst st'. cbn [out_text].
    apply tagged_app; [exact Ho|].
    apply tagged_app; [apply closes_tagged|].
    apply tagged_app; [now apply line_ok, strip_tagged|].
    apply tagged_app; [apply block_tag_ok; cbv; tauto | exact Hnl].
Qed.

Lemma loop_tagged : forall lines st st',
  Forall (tagged T) lines -> tagged (T ++ block_tags) (out_text st) ->
  loop st lines = Ok st' -> tagged (T ++ block_tags) (out_text st').
Proof.
  induction lines as [|line lines IH]; intros st st' Hl Ho E; cbn [loop] in E.
  - now inversion E; subst.
  - inversion Hl; subst.
    destruct (step st line) as [st1|e] eqn:E1; [|discriminate].
    cbn [bind] in E. apply (IH st1 st'); auto.
    now apply (step_tagged st line st1).
Qed.

Lemma render_tagged text out :
  tagged T text -> render text = Ok out -> tagged (T ++ block_tags) out.
Proof.
  intros Ht E. unfold render in E.
  destruct (loop _ (split_nl text)) as [st|e] eqn:El; [|discriminate].
  cbn [bind] in E. rewrite drain_ok in E. cbn [bind out_text] in E.
  apply Ok_inj in E. subst out.
  apply tagged_app; [|apply closes_tagged].
  apply (loop_tagged _ _ st) in El; [exact El | | constructor].
  apply tagged_lines; [|exact Ht]. now apply clean_all.
Qed.
End Loop.

(** ** Opened and closed list containers *)

Lemma all_tags_split : all_tags = inline_tags ++ block_tags.
Proof. reflexivity. Qed.

Lemma inline_to_all c : tagged inline_tags c -> tagged all_tags c.
Proof. apply tagged_mono, inline_incl_all. Qed.

Lemma count_ul_closes k : count tag_ul (closes k) = O.
Proof.
  induction k as [|k IH]; [reflexivity|]. cbn [closes].
  rewrite count_ul_app; [now rewrite IH | apply tagged_one; cbv; tauto].
Qed.

Lemma count_ul_end_closes k : count tag_ul_end (closes k) = k.
Proof.
  induction k as [|k IH]; [reflexivity|]. cbn [closes].
  rewrite count_ul_end_app; [now rewrite IH | apply tagged_one; cbv; tauto].
Qed.

Lemma count_ul_item c :
  tagged inline_tags c ->
  count tag_ul (lit "<li>" ++ c ++ lit "</li>" ++ [c_nl]) = O.
Proof.
  intros H. rewrite count_ul_app by (apply tagged_one; cbv; tauto).
  rewrite count_ul_app by (now apply inline_to_all).
  rewrite (count_ul_inline c H). reflexivity.
Qed.

Lemma count_ul_end_item c :
  tagged inline_tags c ->
  count tag_ul_end (lit "<li>" ++ c ++ lit "</li>" ++ [c_nl]) = O.
Proof.
  intros H. rewrite count_ul_end_app by (apply tagged_one; cbv; tauto).
  rewrite count_ul_end_app by (now apply inline_to_all).
  rewrite (count_ul_end_inline c H). reflexivity.
Qed.

Lemma count_ul_plain c :
  tagged inline_tags c -> count tag_ul (c ++ lit "<br>" ++ [c_nl]) = O.
Proof.
  intros H.
  rewrite count_ul_app by (now apply inline_to_all).
  rewrite (count_ul_inline c H). reflexivity.
Qed.

Lemma count_ul_end_plain c :
  tagged inline_tags c -> count tag_ul_end (c ++ lit "<br>" ++ [c_nl]) = O.
Proof.
  intros H.
  rewrite count_ul_end_app by (now apply inline_to_all).
  rewrite (count_ul_end_inline c H). reflexivity.
Qed.

Lemma inline_space_clean x : isspace x = true -> clean inline_tags x.
Proof. apply space_clean, inline_incl_all. Qed.

Lemma step_balanced st line st' :
  tagged inline_tags line -> balanced st -> step st line = Ok st' -> balanced st'.
Proof.
  intros Hl [Ho Hc] E. split.
  - rewrite all_tags_split.
    apply (step_tagged inline_tags inline_incl_all st line st'); auto.
  - destruct (is_list_item line) eqn:Ei.
    + destruct (step_item st line Ei) as (st1 & Hadj & E1).
      rewrite E1 in E. apply Ok_inj in E. subst st'. cbn [out_text list_levels].
      assert (Hi : tagged inline_tags (item_text line)).
      { apply item_text_tagged; auto using inline_space_clean.
        apply clean_all; [apply inline_incl_all | reflexivity]. }
      assert (H1 : tagged all_tags (out_text st1)).
      { inversion Hadj; subst; cbn [out_text]; try exact Ho;
          (apply tagged_app; [exact Ho | apply tagged_one; cbv; tauto]). }
      rewrite count_ul_app, count_ul_end_app by exact H1.
      rewrite count_ul_item, count_ul_end_item by exact Hi.
      inversion Hadj as [Hopen | Hne Hlt | Hne Hsame]; subst; cbn [out_text list_levels].
      * rewrite count_ul_app, count_ul_end_app by exact Ho.
        rewrite last_length. change (count tag_ul tag_ul) with 1%nat.
        change (count tag_ul_end tag_ul) with 0%nat. lia.
      * rewrite count_ul_app, count_ul_end_app by exact Ho.
        pose proof (length_removelast _ Hne).
        change (count tag_ul tag_ul_end) with 0%nat.
        change (count tag_ul_end tag_ul_end) with 1%nat. lia.
      * lia.
    + rewrite (step_plain st line Ei) in E. apply Ok_inj in E. subst st'.
      cbn [out_text list_levels length].
      assert (Hs : tagged inline_tags (strip line))
        by (apply strip_tagged; auto using inline_space_clean).
      rewrite count_ul_app, count_ul_end_app by exact Ho.
      assert (Hk : tagged all_tags (closes (length (list_levels st))))
        by (rewrite all_tags_split; apply closes_tagged).
      rewrite count_ul_app, count_ul_end_app by exact Hk.
      rewrite count_ul_closes, count_ul_end_closes.
      rewrite count_ul_plain, count_ul_end_plain by exact Hs. lia.
Qed.

Lemma loop_balanced : forall lines st st',
  Forall (tagged inline_tags) lines -> balanced st ->
  loop st lines = Ok st' -> balanced st'.
Proof.
  induction lines as [|line lines IH]; intros st st' Hl Hb E; cbn [loop] in E.
  - apply Ok_inj in E. now subst.
  - inversion Hl; subst.
    destruct (step st line) as [st1|e] eqn:E1; [|discriminate].
    cbn [bind] in E. apply (IH st1 st'); auto.
    now apply (step_balanced st line st1).
Qed.

Lemma render_balanced text out :
  tagged inline_tags text -> render text = Ok out ->
  count tag_ul out = count tag_ul_end out.
Proof.
  intros Ht E. unfold render in E.
  destruct (loop _ (split_nl text)) as [st|e] eqn:El; [|discriminate].
  cbn [bind] in E. rewrite drain_ok in E. cbn [bind out_text] in E.
  apply Ok_inj in E. subst out.
  apply (loop_balanced _ _ st) in El.
  - destruct El as [Ho Hc].
    rewrite count_ul_app, count_ul_end_app by exact Ho.
    rewrite count_ul_closes, count_ul_end_closes. lia.
  - apply tagged_lines; [|exact Ht].
    apply clean_all; [apply inline_incl_all | reflexivity].
  - split; [constructor | reflexivity].
Qed.

(** ** Texts that survive the passes *)

Lemma contains_refl w : contains w w.
Proof. exists [], []. now rewrite app_nil_r. Qed.

Lemma contains_app_l w a b : contains w a -> contains w (a ++ b).
Proof.
  intros (pre & post & ->). exists pre, (post ++ b). now rewrite <- !app_assoc.
Qed.

Lemma contains_app_r w a b : contains w b -> contains w (a ++ b).
Proof.
  intros (pre & post & ->). exists (a ++ pre), post. now rewrite <- !app_assoc.
Qed.

Lemma contains_cons w x s : contains w s -> contains w (x :: s).
Proof. apply (contains_app_r w [x] s). Qed.

Lemma contains_nil_inv w : contains w [] -> w = [].
Proof.
  intros (pre & post & E). symmetry in E.
  apply app_eq_nil in E. destruct E as [_ E]. now apply app_eq_nil in E.
Qed.

Lemma contains_rev w s : contains w s -> contains (rev w) (rev s).
Proof.
  intros (pre & post & ->). exists (rev post), (rev pre).
  now rewrite !rev_app_distr, <- app_assoc.
Qed.

(** A character that [w] does not hold cuts any text around [w]. *)
Lemma contains_cut w x : forall u v,
  ~ In x w -> contains w (u ++ x :: v) -> contains w u \/ contains w v.
Proof.
  intros u v Hx (pre & post & E). revert u E.
  induction pre as [|y pre IH]; intros u E; cbn [app] in E.
  - symmetry in E. destruct (app_eq_across _ _ _ _ _ E Hx) as (u' & -> & _).
    left. exists [], u'. reflexivity.
  - destruct u as [|y' u]; cbn [app] in E; inversion E; subst.
    + right. now exists pre, post.
    + destruct (IH u H1) as [H|H]; [left; now apply contains_cons | now right].
Qed.

Lemma contains_cut_lit w d : d <> [] -> (forall x, In x d -> ~ In x w) ->
  forall u v, contains w (u ++ d ++ v) -> contains w u \/ contains w v.
Proof.
  induction d as [|x d IH]; intros Hne Hd u v H; [contradiction|].
  cbn [app] in H. apply contains_cut in H; [|apply Hd; now left].
  destruct H as [H|H]; [now left|].
  destruct d as [|y d]; [now right|].
  destruct (IH ltac:(discriminate) (fun z Hz => Hd z (or_intror Hz)) [] v H)
    as [H'|H']; [|now right].
  apply contains_nil_inv in H'. subst w. left. exists [], u. reflexivity.
Qed.

Lemma drop_while_contains f w s :
  match w with y :: _ => f y = false | [] => False end ->
  contains w s -> contains w (drop_while f s).
Proof.
  destruct w as [|y w]; [contradiction|]. intros Hy (pre & post & ->).
  induction pre as [|x pre IH]; cbn [app drop_while].
  - rewrite Hy. exists [], post. reflexivity.
  - destruct (f x); [exact IH|]. exists (x :: pre), post. reflexivity.
Qed.

Ltac split_orb H :=
  do 3 (let H2 := fresh "Hb" in
        apply orb_false_elim in H; destruct H as [H H2]).

Lemma inert_head w :
  inert w = true ->
  exists y w', w = y :: w' /\ isspace y = false /\ y <> c_dash.
Proof.
  destruct w as [|y w]; [discriminate|]. cbn [inert forallb].
  intros H. exists y, w. split; [reflexivity|].
  apply andb_true_iff in H. destruct H as [Hd H].
  apply andb_true_iff in H. destruct H as [H _].
  apply negb_true_iff in Hd, H. apply N.eqb_neq in Hd.
  split_orb H. now split.
Qed.

Lemma inert_char w x :
  inert w = true -> In x w ->
  isspace x = false /\ x <> c_slash /\ x <> c_star /\ x <> c_eq.
Proof.
  destruct w as [|y w]; [discriminate|]. unfold inert.
  intros H Hin. apply andb_true_iff in H. destruct H as [_ H].
  rewrite forallb_forall in H. specialize (H x Hin).
  apply negb_true_iff in H.
  split_orb H.
  repeat split; [exact H | now apply N.eqb_neq ..].
Qed.

Lemma inert_last w :
  inert w = true -> exists z w', rev w = z :: w' /\ isspace z = false.
Proof.
  intros H. destruct (rev w) as [|z w'] eqn:E.
  - apply (f_equal (@rev char)) in E. rewrite rev_involutive in E. now subst.
  - exists z, w'. split; [reflexivity|].
    apply (inert_char w z H). apply in_rev. rewrite E. now left.
Qed.

(** No character of a marker occurs in an inert text. *)
Lemma inert_avoids w p :
  inert w = true -> p = em_pat \/ p = strong_pat \/ p = code_pat ->
  forall x, In x (p_open p ++ p_close p) -> ~ In x w.
Proof.
  intros H Hp x Hx Hin.
  destruct (inert_char w x H Hin) as (Hs & H1 & H2 & H3).
  destruct Hp as [-> | [-> | ->]]; cbv in Hx;
    repeat (destruct Hx as [<-|Hx]; [try congruence; now vm_compute in Hs|]);
    contradiction.
Qed.

Lemma match_at_head p o ol x s :
  p_open p = o :: ol -> x <> o -> match_at p (x :: s) = None.
Proof.
  intros E Hx. unfold match_at. rewrite E. cbn [strip_lit].
  destruct (N.eqb_spec o x); [congruence | reflexivity].
Qed.

Lemma sub_through p o ol w b :
  p_open p = o :: ol -> ~ In o w -> sub p (w ++ b) = w ++ sub p b.
Proof.
  intros E. induction w as [|x w IH]; intros Ho; [reflexivity|]. cbn [app].
  rewrite sub_skip.
  - rewrite IH; [reflexivity|]. intros Hin. apply Ho. now right.
  - apply (match_at_head p o ol); [exact E|]. intros ->. apply Ho. now left.
Qed.

Lemma sub_contains p w o ol :
  p_open p = o :: ol -> p_close p <> [] -> w <> [] ->
  (forall x, In x (p_open p ++ p_close p) -> ~ In x w) ->
  forall s, contains w s -> contains w (sub p s).
Proof.
  intros Eo Hc Hw Hav.
  apply (sub_rect' p (fun s out => contains w s -> contains w out)).
  - auto.
  - intros x s E IH (pre & post & E'). rewrite <- (sub_skip _ _ _ E).
    destruct pre as [|y pre]; cbn [app] in E'.
    + rewrite E', (sub_through p o ol); [apply contains_app_l, contains_refl | exact Eo |].
      apply Hav. rewrite Eo. now left.
    + inversion E'; subst. rewrite (sub_skip _ _ _ E).
      apply contains_cons, IH. now exists pre, post.
  - intros s run rest E IH H. apply match_at_sound in E. destruct E as (-> & _ & _).
    apply (contains_cut_lit w (p_open p) ltac:(rewrite Eo; discriminate)
             (fun x Hx => Hav x (in_or_app _ _ _ (or_introl Hx))) [] _) in H.
    destruct H as [H|H]; [apply contains_nil_inv in H; contradiction|].
    apply contains_app_r.
    apply (contains_cut_lit w (p_close p) Hc
             (fun x Hx => Hav x (in_or_app _ _ _ (or_intror Hx)))) in H.
    destruct H as [H|H]; [now apply contains_app_l|].
    now apply contains_app_r, contains_app_r, IH.
Qed.

Lemma inline_contains w s :
  inert w = true -> contains w s -> contains w (inline s).
Proof.
  intros H Hs. unfold inline.
  assert (Hw : w <> []) by (destruct w; [discriminate | discriminate]).
  apply (sub_contains code_pat w c_sp [c_eq]); try reflexivity; try discriminate;
    [exact Hw | apply inert_avoids; tauto |].
  apply (sub_contains strong_pat w c_star []); try reflexivity; try discriminate;
    [exact Hw | apply inert_avoids; tauto |].
  apply (sub_contains em_pat w c_slash []); try reflexivity; try discriminate;
    [exact Hw | apply inert_avoids; tauto | exact Hs].
Qed.

Lemma escape_contains w s : contains w s -> contains (escape w) (escape s).
Proof.
  intros (pre & post & ->). exists (escape pre), (escape post).
  now rewrite !escape_app.
Qed.

Lemma inert_no_space w x : inert w = true -> In x w -> isspace x = false.
Proof. intros H Hx. apply (inert_char w x H Hx). Qed.

Lemma join_contains w : forall ls,
  w <> [] -> ~ In c_nl w -> contains w (join_nl ls) -> Exists (contains w) ls.
Proof.
  intros ls Hw Hnl. induction ls as [|l ls IH]; intros H; cbn [join_nl] in H.
  - apply contains_nil_inv in H. contradiction.
  - destruct ls as [|l' ls]; [now left|].
    apply contains_cut in H; [|exact Hnl].
    destruct H as [H|H]; [now left | right; now apply IH].
Qed.

Lemma strip_contains w line :
  inert w = true -> contains w line -> contains w (strip line).
Proof.
  intros Hi H. unfold strip, rstrip, lstrip.
  destruct (inert_head w Hi) as (y & w' & Ew & Hy & _).
  destruct (inert_last w Hi) as (z & w'' & Er & Hz).
  rewrite <- (rev_involutive w). apply contains_rev.
  apply drop_while_contains; [now rewrite Er|].
  apply contains_rev. apply drop_while_contains; [now rewrite Ew | exact H].
Qed.

Lemma item_contains w line :
  inert w = true -> is_list_item line = true ->
  contains w line -> contains w (item_text line).
Proof.
  intros Hi Hl H. apply (strip_contains w line Hi) in H.
  rewrite (strip_item line Hl) in H.
  destruct (inert_head w Hi) as (y & w' & -> & _ & Hd).
  destruct H as (pre & post & E). destruct pre as [|x pre]; cbn [app] in E.
  - inversion E; congruence.
  - inversion E; subst. now exists pre, post.
Qed.

(** Each iteration only appends to [out_text]. *)
Lemma step_appends st line st' :
  step st line = Ok st' -> exists d, out_text st' = out_text st ++ d.
Proof.
  intros E. destruct (is_list_item line) eqn:Ei.
  - destruct (step_item st line Ei) as (st1 & Hadj & E1).
    rewrite E1 in E. apply Ok_inj in E. subst st'. cbn [out_text].
    inversion Hadj; subst; cbn [out_text]; eexists;
      try (rewrite <- app_assoc); reflexivity.
  - rewrite (step_plain st line Ei) in E. apply Ok_inj in E. subst st'.
    cbn [out_text]. eexists. reflexivity.
Qed.

Lemma loop_appends : forall lines st st',
  loop st lines = Ok st' -> exists d, out_text st' = out_text st ++ d.
Proof.
  induction lines as [|line lines IH]; intros st st' E; cbn [loop] in E.
  - apply Ok_inj in E. subst. exists []. now rewrite app_nil_r.
  - destruct (step st line) as [st1|e] eqn:E1; [|discriminate]. cbn [bind] in E.
    destruct (step_appends _ _ _ E1) as [d1 H1].
    destruct (IH _ _ E) as [d2 H2]. exists (d1 ++ d2).
    now rewrite H2, H1, app_assoc.
Qed.

Lemma step_contains w st line st' :
  inert w = true -> contains w line ->
  step st line = Ok st' -> contains w (out_text st').
Proof.
  intros Hi H E. destruct (is_list_item line) eqn:Ei.
  - destruct (step_item st line Ei) as (st1 & Hadj & E1).
    rewrite E1 in E. apply Ok_inj in E. subst st'. cbn [out_text].
    apply contains_app_r, contains_app_r, contains_app_l.
    now apply item_contains.
  - rewrite (step_plain st line Ei) in E. apply Ok_inj in E. subst st'.
    cbn [out_text].
    apply contains_app_r, contains_app_r, contains_app_l.
    now apply strip_contains.
Qed.

Lemma loop_contains w : forall lines st st',
  inert w = true -> Exists (contains w) lines ->
  loop st lines = Ok st' -> contains w (out_text st').
Proof.
  induction lines as [|line lines IH]; intros st st' Hi Hex E; cbn [loop] in E.
  - inversion Hex.
  - destruct (step st line) as [st1|e] eqn:E1; [|discriminate]. cbn [bind] in E.
    inversion Hex; subst.
    + destruct (loop_appends _ _ _ E) as [d ->].
      apply contains_app_l. now apply (step_contains w st line st1).
    + now apply (IH st1 st').
Qed.

Lemma render_contains w text out :
  inert w = true -> contains w text -> render text = Ok out -> contains w out.
Proof.
  intros Hi H E. unfold render in E.
  destruct (loop _ (split_nl text)) as [st|e] eqn:El; [|discriminate].
  cbn [bind] in E. rewrite drain_ok in E. cbn [bind out_text] in E.
  apply Ok_inj in E. subst out. apply contains_app_l.
  apply (loop_contains w _ _ st Hi) in El; [exact El|].
  apply join_contains.
  - destruct w; discriminate.
  - intros Hin. pose proof (inert_no_space w c_nl Hi Hin). discriminate.
  - now rewrite split_nl_join.
Qed.

(** ** Counting one character through the passes *)

Lemma occ_app c a b : occ c (a ++ b) = (occ c a + occ c b)%nat.
Proof. apply count_occ_app. Qed.

Lemma occ_cons_le c x s : (occ c s <= occ c (x :: s))%nat.
Proof. unfold occ. cbn [count_occ]. destruct (N.eq_dec x c); lia. Qed.

Lemma occ_zero c s : Forall (fun x => x <> c) s -> occ c s = O.
Proof.
  intros H. apply count_occ_not_In. rewrite Forall_forall in H.
  intros Hin. now apply (H c Hin).
Qed.


Lemma escape_occ c s :
  esc1 c = [c] ->
  occ c (lit "&amp;") = O -> occ c (lit "&lt;") = O -> occ c (lit "&gt;") = O ->
  occ c (lit "&quot;") = O -> occ c (lit "&#x27;") = O ->
  occ c (escape s) = occ c s.
Proof.
  intros Hc Ha Hl Hg Hq Hp. induction s as [|x s IH]; [reflexivity|].
  rewrite escape_cons, occ_app, IH.
  change (x :: s) with ([x] ++ s). rewrite occ_app. f_equal.
  assert (Hx : esc1 x <> [x] -> occ c [x] = O).
  { intros H. unfold occ. cbn [count_occ].
    destruct (N.eq_dec x c) as [->|]; [contradiction | reflexivity]. }
  unfold esc1 in *.
  destruct (x =? c_amp); [rewrite Ha, Hx; [reflexivity | discriminate]|].
  destruct (x =? c_lt); [rewrite Hl, Hx; [reflexivity | discriminate]|].
  destruct (x =? c_gt); [rewrite Hg, Hx; [reflexivity | discriminate]|].
  destruct (x =? c_quot); [rewrite Hq, Hx; [reflexivity | discriminate]|].
  destruct (x =? c_apos); [rewrite Hp, Hx; [reflexivity | discriminate]|].
  reflexivity.
Qed.

(** [re.sub] keeps the number of [c] when neither the pattern's literals
    nor the template hold [c]. *)
Lemma sub_occ p c :
  occ c (p_open p) = O -> occ c (p_close p) = O ->
  occ c (r_left p) = O -> occ c (r_right p) = O ->
  forall s, occ c (sub p s) = occ c s.
Proof.
  intros Ho Hc Hl Hr.
  apply (sub_rect' p (fun s out => occ c out = occ c s)).
  - reflexivity.
  - intros x s _ IH. change (x :: sub p s) with ([x] ++ sub p s).
    change (x :: s) with ([x] ++ s). now rewrite !occ_app, IH.
  - intros s run rest E IH. apply match_at_sound in E. destruct E as (-> & _ & _).
    rewrite !occ_app, IH, Ho, Hc, Hl, Hr. lia.
Qed.

(** A pattern whose two literals both hold [c] needs two of them. *)
Lemma sub_needs_two p c :
  (1 <= occ c (p_open p))%nat -> (1 <= occ c (p_close p))%nat ->
  forall s, (occ c s <= 1)%nat -> sub p s = s.
Proof.
  intros Ho Hc.
  apply (sub_rect' p (fun s out => (occ c s <= 1)%nat -> out = s)).
  - reflexivity.
  - intros x s _ IH H. f_equal. apply IH. pose proof (occ_cons_le c x s). lia.
  - intros s run rest E _ H. apply match_at_sound in E. destruct E as (-> & _ & _).
    rewrite !occ_app in H. lia.
Qed.




(** ** Neighbours through the passes *)

Section Pairs.
Variables A B : char -> bool.

Lemma headb_app a b :
  headb B (a ++ b) = match a with [] => headb B b | _ :: _ => headb B a end.
Proof. now destruct a. Qed.

Lemma lastb_app a b :
  lastb A (a ++ b) = match b with [] => lastb A a | _ :: _ => lastb A b end.
Proof.
  induction a as [|x a IH]; [now destruct b|].
  destruct b as [|y b]; [now rewrite app_nil_r|].
  cbn [app lastb]. rewrite IH. destruct a; reflexivity.
Qed.

Lemma nopairs_cons x s :
  nopairs A B (x :: s) = true <->
  ~ (A x = true /\ headb B s = true) /\ nopairs A B s = true.
Proof.
  cbn [nopairs]. rewrite andb_true_iff, negb_true_iff, andb_false_iff.
  destruct (A x), (headb B s); intuition discriminate.
Qed.

Lemma nopairs_app a b :
  nopairs A B (a ++ b) = true <->
  nopairs A B a = true /\ nopairs A B b = true
  /\ ~ (lastb A a = true /\ headb B b = true).
Proof.
  induction a as [|x a IH].
  - cbn [app nopairs lastb]. intuition discriminate.
  - cbn [app]. rewrite !nopairs_cons, IH, headb_app.
    destruct a as [|y a]; cbn [lastb headb nopairs]; intuition discriminate.
Qed.

Lemma nopairs_drop_while f s :
  nopairs A B s = true -> nopairs A B (drop_while f s) = true.
Proof.
  induction s as [|x s IH]; [auto|]. cbn [drop_while].
  destruct (f x); [|auto]. intros H. apply nopairs_cons in H. tauto.
Qed.

Lemma quiet_facts e :
  quiet A B e -> nopairs A B e = true /\ lastb A e = false /\ headb B e = false.
Proof.
  induction 1 as [|c e [Ha Hb] _ (IH1 & IH2 & IH3)]; [now repeat split|].
  cbn [nopairs headb lastb]. rewrite Ha, Hb, IH1.
  repeat split. now destruct e.
Qed.

Hypothesis entities_quiet :
  quiet A B (lit "&amp;") /\ quiet A B (lit "&lt;") /\ quiet A B (lit "&gt;")
  /\ quiet A B (lit "&quot;") /\ quiet A B (lit "&#x27;").

Lemma esc1_cases x : esc1 x = [x] \/ quiet A B (esc1 x).
Proof.
  destruct entities_quiet as (H1 & H2 & H3 & H4 & H5). unfold esc1.
  destruct (x =? c_amp); [now right|]. destruct (x =? c_lt); [now right|].
  destruct (x =? c_gt); [now right|]. destruct (x =? c_quot); [now right|].
  destruct (x =? c_apos); [now right | now left].
Qed.

Lemma esc1_nonempty x : esc1 x <> [].
Proof.
  unfold esc1.
  repeat match goal with |- context [if ?b then _ else _] => destruct b end;
    discriminate.
Qed.

Lemma escape_headb s : headb B (escape s) = true -> headb B s = true.
Proof.
  destruct s as [|x s]; [auto|]. rewrite escape_cons, headb_app.
  pose proof (esc1_nonempty x) as Hne.
  destruct (esc1_cases x) as [E|E].
  - now rewrite E.
  - destruct (esc1 x) eqn:Ee; [contradiction|].
    destruct (quiet_facts _ E) as (_ & _ & H). cbn [headb] in *. congruence.
Qed.

Lemma escape_nopairs s :
  nopairs A B s = true -> nopairs A B (escape s) = true.
Proof.
  induction s as [|x s IH]; [auto|]. intros H.
  apply nopairs_cons in H. destruct H as [Hx Hs].
  rewrite escape_cons. apply nopairs_app.
  destruct (esc1_cases x) as [E|E].
  - rewrite E. cbn [nopairs lastb headb]. rewrite andb_false_r.
    repeat split; [now apply IH|]. intros [Ha Hb]. apply Hx.
    split; [exact Ha | now apply escape_headb].
  - destruct (quiet_facts _ E) as (H1 & H2 & _).
    repeat split; [exact H1 | now apply IH | intros [Ha _]; congruence].
Qed.

(** The conditions under which a substitution makes no new pair: the
    template has none inside, nor at the edges of the group, and what its
    two ends can pair with, the ends of the match could already. *)
Variable p : pattern.
Hypothesis left_ok : nopairs A B (r_left p) = true.
Hypothesis right_ok : nopairs A B (r_right p) = true.
Hypothesis left_last : lastb A (r_left p) = false.
Hypothesis right_head : headb B (r_right p) = false.
Hypothesis right_nonempty : r_right p <> [].
Hypothesis left_nonempty : r_left p <> [].
Hypothesis open_nonempty : p_open p <> [].
Hypothesis close_nonempty : p_close p <> [].
Hypothesis right_last : lastb A (r_right p) = true -> lastb A (p_close p) = true.
Hypothesis left_head : headb B (r_left p) = true -> headb B (p_open p) = true.

Lemma sub_headb s : headb B (sub p s) = true -> headb B s = true.
Proof.
  destruct s as [|x s]; [auto|].
  destruct (match_at p (x :: s)) as [[run rest]|] eqn:E.
  - rewrite (sub_match _ _ _ _ E). apply match_at_sound in E.
    destruct E as (-> & _ & _). rewrite !headb_app.
    destruct (r_left p); [contradiction|]. destruct (p_open p); [contradiction|].
    exact left_head.
  - now rewrite (sub_skip _ _ _ E).
Qed.

Lemma sub_nopairs :
  forall s, nopairs A B s = true -> nopairs A B (sub p s) = true.
Proof.
  apply (sub_rect' p (fun s out => nopairs A B s = true -> nopairs A B out = true)).
  - auto.
  - intros x s _ IH H. apply nopairs_cons in H. destruct H as [Hx Hs].
    apply nopairs_cons. split; [|now apply IH].
    intros [Ha Hb]. apply Hx. split; [exact Ha | now apply sub_headb].
  - intros s run rest E IH H. apply match_at_sound in E.
    destruct E as (-> & Hne & _).
    apply nopairs_app in H. destruct H as (_ & H & _).
    apply nopairs_app in H. destruct H as (Hrun & H & _).
    apply nopairs_app in H. destruct H as (_ & Hrest & Hcr).
    apply nopairs_app. split; [exact left_ok|]. split.
    + apply nopairs_app. split; [exact Hrun|]. split.
      * apply nopairs_app. split; [exact right_ok|]. split; [now apply IH|].
        intros [Ha Hb]. apply Hcr. split; [now apply right_last | now apply sub_headb].
      * rewrite headb_app. destruct (r_right p); [contradiction|].
        intros [_ Hb]. congruence.
    + intros [Ha _]. congruence.
Qed.
End Pairs.

(** A pattern's match holds its two literals next to the group. *)
Lemma sub_no_open A B p :
  nopairs A B (p_open p) = false ->
  forall s, nopairs A B s = true -> sub p s = s.
Proof.
  intros Ho.
  apply (sub_rect' p (fun s out => nopairs A B s = true -> out = s)).
  - reflexivity.
  - intros x s _ IH H. apply nopairs_cons in H. f_equal. now apply IH.
  - intros s run rest E _ H. apply match_at_sound in E. destruct E as (-> & _ & _).
    apply nopairs_app in H. destruct H as [H _]. congruence.
Qed.

Lemma sub_no_close A B p :
  nopairs A B (p_close p) = false ->
  forall s, nopairs A B s = true -> sub p s = s.
Proof.
  intros Hc.
  apply (sub_rect' p (fun s out => nopairs A B s = true -> out = s)).
  - reflexivity.
  - intros x s _ IH H. apply nopairs_cons in H. f_equal. now apply IH.
  - intros s run rest E _ H. apply match_at_sound in E. destruct E as (-> & _ & _).
    apply nopairs_app in H. destruct H as (_ & H & _).
    apply nopairs_app in H. destruct H as (_ & H & _).
    apply nopairs_app in H. destruct H as [H _]. congruence.
Qed.

Lemma nopairs_weaken (A A' B B' : char -> bool) s :
  (forall x, A' x = true -> A x = true) -> (forall x, B' x = true -> B x = true) ->
  nopairs A B s = true -> nopairs A' B' s = true.
Proof.
  intros HA HB. induction s as [|x s IH]; [auto|].
  rewrite !nopairs_cons. intros [Hx Hs]. split; [|now apply IH].
  intros [Ha Hb]. apply Hx. split; [now apply HA|].
  destruct s; [discriminate|]. now apply HB.
Qed.

Lemma entities_quiet_before :
  quiet spacing is_eq (lit "&amp;") /\ quiet spacing is_eq (lit "&lt;")
  /\ quiet spacing is_eq (lit "&gt;") /\ quiet spacing is_eq (lit "&quot;")
  /\ quiet spacing is_eq (lit "&#x27;").
Proof. repeat split; repeat constructor. Qed.

Lemma entities_quiet_after :
  quiet is_eq spacing (lit "&amp;") /\ quiet is_eq spacing (lit "&lt;")
  /\ quiet is_eq spacing (lit "&gt;") /\ quiet is_eq spacing (lit "&quot;")
  /\ quiet is_eq spacing (lit "&#x27;").
Proof. repeat split; repeat constructor. Qed.

(** No [=] after a space or a marker: the code pass finds no opening
    delimiter. *)
Lemma code_pass_idle_before text :
  nopairs spacing is_eq text = true ->
  let t := sub strong_pat (sub em_pat (escape (lstrip_stars text))) in
  sub code_pat t = t.
Proof.
  intros H t. apply (sub_no_open is_sp is_eq); [reflexivity|].
  apply (nopairs_weaken spacing is_sp is_eq is_eq).
  - intros x Hx. unfold spacing. unfold is_sp in Hx. now rewrite Hx.
  - auto.
  - subst t.
    apply sub_nopairs; try reflexivity; try discriminate.
    apply sub_nopairs; try reflexivity; try discriminate.
    apply escape_nopairs; [exact entities_quiet_before|].
    now apply nopairs_drop_while.
Qed.

(** No [=] before a space or a marker: the code pass finds no closing
    delimiter. *)
Lemma code_pass_idle_after text :
  nopairs is_eq spacing text = true ->
  let t := sub strong_pat (sub em_pat (escape (lstrip_stars text))) in
  sub code_pat t = t.
Proof.
  intros H t. apply (sub_no_close is_eq is_sp); [reflexivity|].
  apply (nopairs_weaken is_eq is_eq spacing is_sp).
  - auto.
  - intros x Hx. unfold spacing. unfold is_sp in Hx. now rewrite Hx.
  - subst t.
    apply sub_nopairs; try reflexivity; try discriminate.
    apply sub_nopairs; try reflexivity; try discriminate.
    apply escape_nopairs; [exact entities_quiet_after|].
    now apply nopairs_drop_while.
Qed.

Lemma count_code_zero T out :
  incl T (em_tags ++ strong_tags ++ block_tags) -> tagged T out ->
  count tag_code out = O.
Proof.
  intros Hi H. apply (tagged_mono T _ out Hi) in H. revert H.
  apply count_zero_tagged.
  - intros x s. apply starts_with_lt.
  - intros t Ht. each_tag Ht.
Qed.

(** * The claims *)

(** ** Empty input *)

(** C1, the claim as the spec words it fails: [htmlify("")] is not the empty
    string. *)
Lemma htmlify_empty_is_not_empty : htmlify [] <> Ok [].
Proof. vm_compute. discriminate. Qed.

(** C1, amended.  [text.split("\n")] of the empty text is the one-element
    list [[""]], so the line loop runs once, on an empty non-list line, and
    [htmlify("")] is ["<br>\n"]; the stack stayed empty and nothing is
    drained. *)
Theorem htmlify_empty :
  split_nl [] = [[]]
  /\ loop {| list_levels := []; out_text := [] |} (split_nl []) =
       Ok {| list_levels := []; out_text := lit "<br>" ++ [c_nl] |}
  /\ htmlify [] = Ok (lit "<br>" ++ [c_nl]).
Proof. repeat split. Qed.

(** ** Identifiers *)

(** C3.  [generate_id] reads only the heading of the node: under one
    namespace, two nodes with equal headings get the same identifier,
    whatever their bodies, levels, tags and properties; and so do two calls
    on the same node. *)
Theorem generate_id_heading_only
    (namespace : Type) (uuid5 : namespace -> str -> str)
    (ns : namespace) (n1 n2 : node) :
  heading n1 = heading n2 ->
  generate_id namespace uuid5 ns n1 = generate_id namespace uuid5 ns n2.
Proof. unfold generate_id. now intros ->. Qed.

Lemma generate_id_heading_only_witness :
  let n1 := {| heading := lit "Photosynthesis"; body := lit "light";
               level := 1; tags := []; properties := [] |} in
  let n2 := {| heading := lit "Photosynthesis"; body := lit "dark";
               level := 3; tags := [lit "bio"]; properties := [] |} in
  heading n1 = heading n2
  /\ generate_id unit (fun _ h => lit "id-" ++ h) tt n1
     = generate_id unit (fun _ h => lit "id-" ++ h) tt n2.
Proof.
  intros n1 n2. split; [reflexivity|].
  apply (generate_id_heading_only unit (fun _ h => lit "id-" ++ h) tt n1 n2).
  reflexivity.
Defined.

(** ** One pop per list line *)

(** C4.  A list line whose depth is strictly less than the top of the stack
    pops exactly one level and emits exactly one closing tag, then its item
    and the newline, however many levels it dedents by. *)
Theorem step_dedent_pops_once (levels : list nat) (out line : str) :
  is_list_item line = true ->
  levels <> [] ->
  (depth line < last levels O)%nat ->
  step {| list_levels := levels; out_text := out |} line =
    Ok {| list_levels := removelast levels;
          out_text := out ++ tag_ul_end ++ lit "<li>" ++ item_text line
                        ++ lit "</li>" ++ [c_nl] |}.
Proof.
  intros Hitem Hne Hlt.
  destruct (step_item {| list_levels := levels; out_text := out |} line Hitem)
    as (st' & Hadj & ->).
  inversion Hadj as [Hopen | _ _ | _ Hsame]; subst; cbn [list_levels out_text] in *.
  - destruct Hopen as [-> | Hgt]; [contradiction | lia].
  - now rewrite <- app_assoc.
  - lia.
Qed.

Lemma step_dedent_pops_once_witness :
  is_list_item (lit "- d") = true
  /\ [0; 2; 4]%nat <> []
  /\ (depth (lit "- d") < last [0; 2; 4]%nat O)%nat
  /\ step {| list_levels := [0; 2; 4]%nat; out_text := [] |} (lit "- d") =
       Ok {| list_levels := [0; 2]%nat;
             out_text := lit "</ul><li> d</li>" ++ [c_nl] |}.
Proof.
  split; [reflexivity|]. split; [discriminate|].
  split; [vm_compute; lia|].
  apply (step_dedent_pops_once [0; 2; 4]%nat [] (lit "- d"));
    [reflexivity | discriminate | vm_compute; lia].
Defined.

(** ** Lists close at the first plain line *)

(** C7.  For ["- a\ntext"] the closing list tag comes before [text<br>]; and
    in general a line that is not a list item first closes every open level,
    then emits its trimmed text and the line break. *)
Theorem htmlify_list_then_text :
  htmlify (lit "- a" ++ [c_nl] ++ lit "text") =
    Ok (lit "<ul><li> a</li>" ++ [c_nl] ++ lit "</ul>" ++ lit "text<br>" ++ [c_nl])
  /\ forall st line, is_list_item line = false ->
       step st line =
         Ok {| list_levels := [];
               out_text := out_text st ++ closes (length (list_levels st))
                             ++ strip line ++ lit "<br>" ++ [c_nl] |}.
Proof.
  split; [reflexivity|]. intros st line H. now apply step_plain.
Qed.

Lemma htmlify_list_then_text_witness :
  is_list_item (lit "text") = false
  /\ step {| list_levels := [0%nat]; out_text := lit "<ul><li> a</li>" ++ [c_nl] |}
          (lit "text") =
       Ok {| list_levels := [];
             out_text := lit "<ul><li> a</li>" ++ [c_nl] ++ lit "</ul>text<br>"
                           ++ [c_nl] |}.
Proof.
  split; [reflexivity|].
  apply (proj2 htmlify_list_then_text
           {| list_levels := [0%nat]; out_text := lit "<ul><li> a</li>" ++ [c_nl] |}
           (lit "text")).
  reflexivity.
Defined.

(** ** Totality *)

(** C9.  [htmlify] returns a string on every input: no [IndexError] from the
    stack, no [AttributeError] from the match object, and every loop ends. *)
Theorem htmlify_total (text : str) : exists out, htmlify text = Ok out.
Proof. unfold htmlify. apply render_total. Qed.

(** ** Every list container is closed *)

(** C2.  On every input [htmlify] returns a text in which ["<ul>"] occurs as
    often as ["</ul>"]. *)
Theorem htmlify_list_balance (text : str) :
  exists out, htmlify text = Ok out /\ count tag_ul out = count tag_ul_end out.
Proof.
  destruct (htmlify_returns text) as [out E]. exists out. split; [exact E|].
  unfold htmlify in E. apply (render_balanced _ _ (inline_tagged _) E).
Qed.

(** ** Leading stars *)



(** * Further properties of [htmlify] *)

(** ** Properties of every character of the output *)

Lemma drop_while_Forall (P : char -> Prop) f s :
  Forall P s -> Forall P (drop_while f s).
Proof.
  induction 1 as [|x s Hx Hs IH]; [constructor|]. cbn [drop_while].
  destruct (f x); [exact IH | now constructor].
Qed.

Lemma strip_Forall (P : char -> Prop) s : Forall P s -> Forall P (strip s).
Proof.
  intros H. unfold strip, rstrip, lstrip.
  apply Forall_rev, drop_while_Forall, Forall_rev, drop_while_Forall, H.
Qed.

Lemma item_text_Forall (P : char -> Prop) s : Forall P s -> Forall P (item_text s).
Proof.
  intros H. apply (strip_Forall P) in H. unfold item_text.
  destruct (strip s); [constructor | now inversion H].
Qed.

Lemma sub_Forall (P : char -> Prop) p :
  Forall P (r_left p) -> Forall P (r_right p) ->
  forall s, Forall P s -> Forall P (sub p s).
Proof.
  intros Hl Hr.
  apply (sub_rect' p (fun s out => Forall P s -> Forall P out)).
  - auto.
  - intros x s _ IH H. inversion H; subst. constructor; auto.
  - intros s run rest E IH H. apply match_at_sound in E. destruct E as (-> & _ & _).
    apply Forall_app in H. destruct H as [_ H].
    apply Forall_app in H. destruct H as [Hrun H].
    apply Forall_app in H. destruct H as [_ Hrest].
    repeat (apply Forall_app; split); auto.
Qed.

Lemma split_nl_Forall (P : char -> Prop) s :
  Forall P s -> Forall (Forall P) (split_nl s).
Proof.
  induction 1 as [|x s Hx Hs IH]; [repeat constructor|]. cbn [split_nl].
  destruct (x =? c_nl); [constructor; [constructor | exact IH]|].
  destruct (split_nl s) as [|l ls]; [repeat constructor; exact Hx|].
  inversion IH; subst. constructor; [now constructor | assumption].
Qed.

(** No line of [text.split("\n")] holds a newline. *)
Lemma split_nl_lines s : Forall (Forall (fun x => x <> c_nl)) (split_nl s).
Proof.
  induction s as [|x s IH]; [repeat constructor|]. cbn [split_nl].
  destruct (N.eqb_spec x c_nl) as [->|Hx]; [constructor; [constructor | exact IH]|].
  destruct (split_nl s) as [|l ls]; [repeat constructor; exact Hx|].
  inversion IH; subst. constructor; [now constructor | assumption].
Qed.

Lemma closes_Forall (P : char -> Prop) k : Forall P tag_ul_end -> Forall P (closes k).
Proof.
  intros H. induction k as [|k IH]; [constructor|]. cbn [closes].
  apply Forall_app. now split.
Qed.

Section OutputChars.
Variable P : char -> Prop.
Hypothesis P_tags : Forall (Forall P) block_tags.
Hypothesis P_nl : P c_nl.

Lemma P_block t : In t block_tags -> Forall P t.
Proof. intros H. rewrite Forall_forall in P_tags. now apply P_tags. Qed.

Lemma step_Forall st line st' :
  Forall P line -> Forall P (out_text st) ->
  step st line = Ok st' -> Forall P (out_text st').
Proof.
  intros Hl Ho E. destruct (is_list_item line) eqn:Ei.
  - destruct (step_item st line Ei) as (st1 & Hadj & E1).
    rewrite E1 in E. apply Ok_inj in E. subst st'. cbn [out_text].
    assert (H1 : Forall P (out_text st1)).
    { inversion Hadj; subst; cbn [out_text]; try exact Ho;
        (apply Forall_app; split; [exact Ho | apply P_block; cbv; tauto]). }
    repeat (apply Forall_app; split); auto using item_text_Forall;
      apply P_block; cbv; tauto.
  - rewrite (step_plain st line Ei) in E. apply Ok_inj in E. subst st'.
    cbn [out_text].
    repeat (apply Forall_app; split); auto using strip_Forall.
    + apply closes_Forall, P_block. cbv. tauto.
    + apply P_block. cbv. tauto.
Qed.

Lemma loop_Forall : forall lines st st',
  Forall (Forall P) lines -> Forall P (out_text st) ->
  loop st lines = Ok st' -> Forall P (out_text st').
Proof.
  induction lines as [|line lines IH]; intros st st' Hl Ho E; cbn [loop] in E.
  - apply Ok_inj in E. now subst.
  - inversion Hl; subst.
    destruct (step st line) as [st1|e] eqn:E1; [|discriminate].
    cbn [bind] in E. apply (IH st1 st'); auto.
    now apply (step_Forall st line st1).
Qed.

Lemma render_Forall text out :
  Forall P text -> render text = Ok out -> Forall P out.
Proof.
  intros Ht E. unfold render in E.
  destruct (loop _ (split_nl text)) as [st|e] eqn:El; [|discriminate].
  cbn [bind] in E. rewrite drain_ok in E. cbn [bind out_text] in E.
  apply Ok_inj in E. subst out. apply Forall_app. split.
  - apply (loop_Forall _ _ st) in El; [exact El | now apply split_nl_Forall | constructor].
  - apply closes_Forall, P_block. cbv. tauto.
Qed.
End OutputChars.

Lemma inline_Forall (P : char -> Prop) s :
  P c_sp -> Forall (Forall P) inline_tags -> Forall P s -> Forall P (inline s).
Proof.
  intros Hsp Ht H. rewrite Forall_forall in Ht. unfold inline.
  assert (Hl : forall t, In t inline_tags -> Forall P (c_sp :: t))
    by (intros t Hin; constructor; auto).
  assert (Hr : forall t, In t inline_tags -> Forall P (t ++ [c_sp]))
    by (intros t Hin; apply Forall_app; split; auto).
  apply sub_Forall;
    [apply (Hl (lit "<code>")); cbv; tauto | apply (Hr (lit "</code>")); cbv; tauto |].
  apply sub_Forall;
    [apply (Hl (lit "<strong>")); cbv; tauto | apply (Hr (lit "</strong>")); cbv; tauto |].
  apply sub_Forall;
    [apply (Hl (lit "<em>")); cbv; tauto | apply (Hr (lit "</em>")); cbv; tauto |].
  exact H.
Qed.

Lemma no_quotes_escape s :
  Forall (fun c => c <> c_quot /\ c <> c_apos) (escape s).
Proof.
  apply escape_Forall; try (repeat constructor; discriminate).
  intros x H. unfold esc1 in H. split; intros ->; vm_compute in H; discriminate.
Qed.

(** X1.  Whatever the input, every ["<"] of the output opens one of the
    eleven tags the program writes, spelled in full: the input cannot bring
    a tag of its own; and the output holds neither a double quote nor an
    apostrophe. *)
Theorem htmlify_output_is_safe (text : str) :
  exists out, htmlify text = Ok out
    /\ tagged all_tags out
    /\ Forall (fun c => c <> c_quot /\ c <> c_apos) out.
Proof.
  destruct (htmlify_returns text) as [out E]. exists out. split; [exact E|].
  unfold htmlify in E. split.
  - rewrite all_tags_split.
    apply (render_tagged inline_tags inline_incl_all _ _ (inline_tagged _) E).
  - apply (render_Forall (fun c => c <> c_quot /\ c <> c_apos)) in E; [exact E | | |].
    + repeat constructor; discriminate.
    + split; discriminate.
    + apply inline_Forall; [split; discriminate | | apply no_quotes_escape].
      repeat constructor; discriminate.
Qed.

(** ** Newlines *)

Lemma drop_while_occ f c s : f c = false -> occ c (drop_while f s) = occ c s.
Proof.
  intros Hc. induction s as [|x s IH]; [reflexivity|]. cbn [drop_while].
  destruct (f x) eqn:Ex; [|reflexivity]. rewrite IH.
  unfold occ. cbn [count_occ]. destruct (N.eq_dec x c); [congruence | reflexivity].
Qed.

Lemma split_nl_length s : length (split_nl s) = S (occ c_nl s).
Proof.
  induction s as [|x s IH]; [reflexivity|]. cbn [split_nl]. unfold occ in *.
  cbn [count_occ]. destruct (N.eqb_spec x c_nl) as [->|Hx].
  - cbn [length]. rewrite IH. now destruct (N.eq_dec c_nl c_nl).
  - destruct (N.eq_dec x c_nl); [contradiction|].
    destruct (split_nl s); [discriminate | exact IH].
Qed.

Lemma occ_nl_closes k : occ c_nl (closes k) = O.
Proof. induction k as [|k IH]; [reflexivity|]. cbn [closes]. now rewrite occ_app, IH. Qed.

Lemma step_newline st line st' :
  Forall (fun x => x <> c_nl) line -> step st line = Ok st' ->
  occ c_nl (out_text st') = S (occ c_nl (out_text st)).
Proof.
  intros Hl E. destruct (is_list_item line) eqn:Ei.
  - destruct (step_item st line Ei) as (st1 & Hadj & E1).
    rewrite E1 in E. apply Ok_inj in E. subst st'. cbn [out_text].
    rewrite !occ_app, (occ_zero _ _ (item_text_Forall _ _ Hl)).
    assert (H1 : occ c_nl (out_text st1) = occ c_nl (out_text st)).
    { inversion Hadj; subst; cbn [out_text]; [| |reflexivity];
        rewrite occ_app; cbv [tag_ul tag_ul_end]; cbn; lia. }
    rewrite H1. cbn. lia.
  - rewrite (step_plain st line Ei) in E. apply Ok_inj in E. subst st'.
    cbn [out_text].
    rewrite !occ_app, occ_nl_closes, (occ_zero _ _ (strip_Forall _ _ Hl)).
    cbn. lia.
Qed.

Lemma loop_newlines : forall lines st st',
  Forall (Forall (fun x => x <> c_nl)) lines -> loop st lines = Ok st' ->
  occ c_nl (out_text st') = (occ c_nl (out_text st) + length lines)%nat.
Proof.
  induction lines as [|line lines IH]; intros st st' Hl E; cbn [loop] in E.
  - apply Ok_inj in E. subst. cbn [length]. lia.
  - inversion Hl; subst.
    destruct (step st line) as [st1|e] eqn:E1; [|discriminate]. cbn [bind] in E.
    rewrite (IH st1 st') by assumption.
    rewrite (step_newline st line st1) by assumption. cbn [length]. lia.
Qed.

(** X2.  The output has exactly one newline more than the input: one after
    each line, and the input's last line has none of its own. *)
Theorem htmlify_newlines (text : str) :
  exists out, htmlify text = Ok out /\ occ c_nl out = S (occ c_nl text).
Proof.
  destruct (htmlify_returns text) as [out E]. exists out. split; [exact E|].
  unfold htmlify, render in E.
  set (t := inline _) in E.
  destruct (loop _ (split_nl t)) as [st|e] eqn:El; [|discriminate].
  cbn [bind] in E. rewrite drain_ok in E. cbn [bind out_text] in E.
  apply Ok_inj in E. subst out.
  rewrite occ_app, occ_nl_closes.
  rewrite (loop_newlines _ _ _ (split_nl_lines t) El). cbn [out_text].
  rewrite split_nl_length. subst t. unfold inline.
  rewrite !sub_occ by reflexivity.
  rewrite escape_occ by reflexivity.
  unfold lstrip_stars. rewrite drop_while_occ by reflexivity.
  unfold occ at 1. cbn [count_occ]. lia.
Qed.

(** ** The stack of levels *)

Lemma increasing_snoc l v :
  increasing l -> l = [] \/ (last l O < v)%nat -> increasing (l ++ [v]).
Proof.
  induction l as [|x l IH]; intros H Hv; [cbn; auto|].
  destruct Hv as [Hv|Hv]; [discriminate|].
  destruct l as [|y l].
  - cbn in *. auto.
  - destruct H as [Hxy H]. change ((x :: y :: l) ++ [v]) with (x :: (y :: l) ++ [v]).
    split; [exact Hxy|]. apply IH; [exact H | right; exact Hv].
Qed.

Lemma increasing_removelast l : increasing l -> increasing (removelast l).
Proof.
  induction l as [|x l IH]; intros H; [exact I|].
  destruct l as [|y l]; [exact I|].
  destruct H as [Hxy H]. change (removelast (x :: y :: l)) with (x :: removelast (y :: l)).
  split; [|now apply IH].
  destruct l as [|z l]; [exact I | exact Hxy].
Qed.

Lemma step_increasing st line st' :
  increasing (list_levels st) -> step st line = Ok st' ->
  increasing (list_levels st').
Proof.
  intros H E. destruct (is_list_item line) eqn:Ei.
  - destruct (step_item st line Ei) as (st1 & Hadj & E1).
    rewrite E1 in E. apply Ok_inj in E. subst st'. cbn [list_levels].
    inversion Hadj; subst; cbn [list_levels];
      [now apply increasing_snoc | now apply increasing_removelast | exact H].
  - rewrite (step_plain st line Ei) in E. apply Ok_inj in E. subst st'. exact I.
Qed.

(** X3.  From any state whose stack is strictly increasing, and so from the
    empty stack the loop starts with, the stack is strictly increasing after
    any number of lines: a level is pushed only above a smaller one, and no
    depth is ever on the stack twice. *)
Theorem loop_levels_increasing : forall lines st st',
  increasing (list_levels st) -> loop st lines = Ok st' ->
  increasing (list_levels st').
Proof.
  induction lines as [|line lines IH]; intros st st' H E; cbn [loop] in E.
  - apply Ok_inj in E. now subst.
  - destruct (step st line) as [st1|e] eqn:E1; [|discriminate]. cbn [bind] in E.
    apply (IH st1 st'); [|exact E]. now apply (step_increasing st line st1).
Qed.

Lemma loop_levels_increasing_witness :
  increasing (list_levels {| list_levels := []; out_text := [] |})
  /\ loop {| list_levels := []; out_text := [] |}
          [lit "- a"; lit "    - b"; lit "  - c"; lit "   - d"]
     = Ok {| list_levels := [0; 3]%nat;
             out_text := lit "<ul><li> a</li>" ++ [c_nl] ++ lit "<ul><li> b</li>"
                           ++ [c_nl] ++ lit "</ul><li> c</li>" ++ [c_nl]
                           ++ lit "<ul><li> d</li>" ++ [c_nl] |}
  /\ increasing [0; 3]%nat.
Proof.
  split; [exact I|]. split; [reflexivity|].
  apply (loop_levels_increasing
           [lit "- a"; lit "    - b"; lit "  - c"; lit "   - d"]
           {| list_levels := []; out_text := [] |}
           {| list_levels := [0; 3]%nat;
              out_text := lit "<ul><li> a</li>" ++ [c_nl] ++ lit "<ul><li> b</li>"
                            ++ [c_nl] ++ lit "</ul><li> c</li>" ++ [c_nl]
                            ++ lit "<ul><li> d</li>" ++ [c_nl] |});
    [exact I | reflexivity].
Defined.

(** ** Blocks whose rendering can be written down *)

Lemma split_nl_line l : Forall (fun x => x <> c_nl) l -> split_nl l = [l].
Proof.
  induction 1 as [|x l Hx _ IH]; [reflexivity|]. cbn [split_nl].
  destruct (N.eqb_spec x c_nl); [contradiction|]. now rewrite IH.
Qed.

Lemma split_nl_app l s :
  Forall (fun x => x <> c_nl) l -> split_nl (l ++ c_nl :: s) = l :: split_nl s.
Proof.
  induction 1 as [|x l Hx _ IH]; cbn [app split_nl].
  - now rewrite N.eqb_refl.
  - destruct (N.eqb_spec x c_nl); [contradiction|]. now rewrite IH.
Qed.

(** Splitting undoes joining, for lines without newlines. *)
Lemma split_nl_of_join ls :
  ls <> [] -> Forall (Forall (fun x => x <> c_nl)) ls -> split_nl (join_nl ls) = ls.
Proof.
  induction ls as [|l ls IH]; intros Hne H; [contradiction|].
  inversion H; subst. cbn [join_nl]. destruct ls as [|l' ls].
  - now apply split_nl_line.
  - rewrite split_nl_app by assumption. f_equal. apply IH; [discriminate | assumption].
Qed.

(** A text without a character that [html.escape] rewrites and without a
    marker goes through to the line loop as it is. *)
Lemma plain_to_loop text :
  Forall (fun x => escaped x = false /\ marker x = false) text ->
  htmlify text = render text.
Proof.
  intros H. unfold htmlify.
  assert (Hc : forall c, marker c = true -> occ c text = O).
  { intros c Hm. apply occ_zero. eapply Forall_impl; [|exact H].
    intros x [_ Hx] ->. congruence. }
  assert (E0 : lstrip_stars text = text).
  { unfold lstrip_stars. destruct H as [|x s [_ Hx] _]; [reflexivity|].
    cbn [drop_while]. destruct (N.eqb_spec c_star x) as [<-|]; [discriminate|reflexivity]. }
  assert (E1 : escape text = text).
  { clear Hc E0. induction H as [|x s [Hx _] _ IH]; [reflexivity|].
    rewrite escape_cons, IH. unfold esc1. unfold escaped in Hx.
    repeat (apply orb_false_elim in Hx; destruct Hx as [Hx ?]).
    repeat match goal with E : (x =? _) = false |- _ => rewrite E; clear E end.
    reflexivity. }
  rewrite E0, E1. unfold inline.
  rewrite (sub_needs_two em_pat c_slash) by first [rewrite Hc by reflexivity; lia | cbv; lia].
  rewrite (sub_needs_two strong_pat c_star) by first [rewrite Hc by reflexivity; lia | cbv; lia].
  rewrite (sub_needs_two code_pat c_eq) by first [rewrite Hc by reflexivity; lia | cbv; lia].
  reflexivity.
Qed.

Lemma join_nl_Forall (P : char -> Prop) ls :
  P c_nl -> Forall (Forall P) ls -> Forall P (join_nl ls).
Proof.
  intros Hn. induction 1 as [|l ls Hl _ IH]; [constructor|]. cbn [join_nl].
  destruct ls; [exact Hl|]. apply Forall_app. split; [exact Hl | now constructor].
Qed.

Lemma step_open lv out line :
  is_list_item line = true -> lv = [] \/ (last lv O < depth line)%nat ->
  step {| list_levels := lv; out_text := out |} line =
    Ok {| list_levels := lv ++ [depth line];
          out_text := out ++ tag_ul ++ item_html line |}.
Proof.
  intros Hi Hd.
  destruct (step_item {| list_levels := lv; out_text := out |} line Hi)
    as (st1 & Hadj & ->).
  inversion Hadj as [_ | Hne Hlt | Hne Hsame]; subst; cbn [list_levels out_text] in *.
  - unfold item_html. now rewrite <- app_assoc.
  - destruct Hd as [-> | Hd]; [contradiction | lia].
  - destruct Hd as [-> | Hd]; [contradiction | lia].
Qed.

Lemma step_same lv out line :
  is_list_item line = true -> lv <> [] -> last lv O = depth line ->
  step {| list_levels := lv; out_text := out |} line =
    Ok {| list_levels := lv; out_text := out ++ item_html line |}.
Proof.
  intros Hi Hne Hd.
  destruct (step_item {| list_levels := lv; out_text := out |} line Hi)
    as (st1 & Hadj & ->).
  inversion Hadj as [Hopen | _ Hlt | _ _]; subst; cbn [list_levels out_text] in *.
  - destruct Hopen as [-> | Hlt]; [contradiction | lia].
  - lia.
  - reflexivity.
Qed.

Lemma loop_flat d : forall lines lv out,
  lv <> [] -> last lv O = d ->
  Forall (fun l => is_list_item l = true /\ depth l = d) lines ->
  loop {| list_levels := lv; out_text := out |} lines =
    Ok {| list_levels := lv; out_text := out ++ concat (map item_html lines) |}.
Proof.
  induction lines as [|line lines IH]; intros lv out Hne Hd H; cbn [loop map concat].
  - now rewrite app_nil_r.
  - inversion H as [|? ? [Hi Hdl] Hrest]; subst.
    rewrite step_same by auto. cbn [bind].
    rewrite IH by auto. now rewrite <- app_assoc.
Qed.

Lemma loop_stairs : forall lines lv out,
  increasing (lv ++ map depth lines) ->
  Forall (fun l => is_list_item l = true) lines ->
  loop {| list_levels := lv; out_text := out |} lines =
    Ok {| list_levels := lv ++ map depth lines;
          out_text := out ++ concat (map (fun l => tag_ul ++ item_html l) lines) |}.
Proof.
  induction lines as [|line lines IH]; intros lv out Hinc H; cbn [loop map concat].
  - now rewrite !app_nil_r.
  - inversion H; subst. cbn [map] in Hinc.
    assert (Hinc' : increasing ((lv ++ [depth line]) ++ map depth lines))
      by (now rewrite <- app_assoc).
    rewrite step_open; [cbn [bind]|exact H2|].
    + rewrite IH by assumption. now rewrite <- !app_assoc.
    + destruct lv as [|x lv]; [now left | right].
      clear IH H H2 H3 Hinc'. revert x Hinc.
      induction lv as [|y lv IHl]; intros x Hinc.
      * cbn in *. tauto.
      * change (last (x :: y :: lv) O) with (last (y :: lv) O).
        apply IHl. exact (proj2 Hinc).
Qed.

Lemma loop_plain : forall lines out,
  Forall (fun l => is_list_item l = false) lines ->
  loop {| list_levels := []; out_text := out |} lines =
    Ok {| list_levels := []; out_text := out ++ concat (map plain_html lines) |}.
Proof.
  induction lines as [|line lines IH]; intros out H; cbn [loop map concat].
  - now rewrite app_nil_r.
  - inversion H; subst. rewrite step_plain by assumption.
    cbn [bind list_levels out_text length closes app].
    rewrite IH by assumption. unfold plain_html. now rewrite <- !app_assoc.
Qed.

Lemma plain_lines_join lines :
  Forall (Forall (fun x => x <> c_nl /\ escaped x = false /\ marker x = false)) lines ->
  Forall (fun x => escaped x = false /\ marker x = false) (join_nl lines)
  /\ Forall (Forall (fun x => x <> c_nl)) lines.
Proof.
  intros H. split.
  - apply join_nl_Forall; [now split|].
    eapply Forall_impl; [|exact H]. intros l Hl.
    eapply Forall_impl; [|exact Hl]. cbn. tauto.
  - eapply Forall_impl; [|exact H]. intros l Hl.
    eapply Forall_impl; [|exact Hl]. cbn. tauto.
Qed.

(** X4.  A block of list lines that all have the same depth, whose text has
    no newline, no character that is escaped and no marker, is rendered as
    one opening tag, one item per line and one closing tag, without any
    line break tag. *)
Theorem htmlify_flat_list (d : nat) (line : str) (lines : list str) :
  Forall (fun l => is_list_item l = true /\ depth l = d) (line :: lines) ->
  Forall (Forall (fun x => x <> c_nl /\ escaped x = false /\ marker x = false))
         (line :: lines) ->
  htmlify (join_nl (line :: lines)) =
    Ok (tag_ul ++ concat (map item_html (line :: lines)) ++ tag_ul_end).
Proof.
  intros Hd Hp. destruct (plain_lines_join _ Hp) as [Hj Hn].
  rewrite (plain_to_loop _ Hj). unfold render.
  rewrite split_nl_of_join by (discriminate || exact Hn).
  inversion Hd as [|? ? [Hi Hdl] Hrest]; subst. cbn [loop].
  rewrite step_open by auto. cbn [bind].
  rewrite (loop_flat (depth line)) by (discriminate || auto).
  cbn [bind]. rewrite drain_ok. cbn [bind out_text list_levels app length closes map concat].
  now rewrite <- !app_assoc, app_nil_r.
Qed.

Lemma htmlify_flat_list_witness :
  htmlify (join_nl [lit "- a"; lit "- b"; lit "- c"]) =
    Ok (tag_ul ++ concat (map item_html [lit "- a"; lit "- b"; lit "- c"])
        ++ tag_ul_end).
Proof.
  apply (htmlify_flat_list 0 (lit "- a") [lit "- b"; lit "- c"]).
  - repeat constructor.
  - repeat constructor; discriminate.
Defined.

(** X5.  A block of list lines each deeper than the one before, with the
    same plain text, only opens lists: every line gets its own opening tag,
    and all the closing tags come at the very end, one per line. *)
Theorem htmlify_staircase (lines : list str) :
  lines <> [] ->
  increasing (map depth lines) ->
  Forall (fun l => is_list_item l = true) lines ->
  Forall (Forall (fun x => x <> c_nl /\ escaped x = false /\ marker x = false)) lines ->
  htmlify (join_nl lines) =
    Ok (concat (map (fun l => tag_ul ++ item_html l) lines) ++ closes (length lines)).
Proof.
  intros Hne Hinc Hi Hp. destruct (plain_lines_join _ Hp) as [Hj Hn].
  rewrite (plain_to_loop _ Hj). unfold render.
  rewrite split_nl_of_join by assumption.
  rewrite loop_stairs by assumption. cbn [bind].
  rewrite drain_ok. cbn [bind out_text list_levels app].
  now rewrite length_map.
Qed.

Lemma htmlify_staircase_witness :
  htmlify (join_nl [lit "- a"; lit " - b"; lit "   - c"]) =
    Ok (concat (map (fun l => tag_ul ++ item_html l)
                    [lit "- a"; lit " - b"; lit "   - c"]) ++ closes 3).
Proof.
  apply (htmlify_staircase [lit "- a"; lit " - b"; lit "   - c"]).
  - discriminate.
  - cbn. lia.
  - repeat constructor.
  - repeat constructor; discriminate.
Defined.

(** X6.  A text without a character that is escaped, without a marker and
    without a list line is rendered line by line: each line trimmed,
    followed by the line break tag and a newline. *)
Theorem htmlify_plain_text (text : str) :
  Forall (fun x => escaped x = false /\ marker x = false) text ->
  Forall (fun l => is_list_item l = false) (split_nl text) ->
  htmlify text = Ok (concat (map plain_html (split_nl text))).
Proof.
  intros Hp Hl. rewrite (plain_to_loop _ Hp). unfold render.
  rewrite loop_plain by exact Hl. cbn [bind]. rewrite drain_ok.
  cbn [bind out_text list_levels length closes app]. now rewrite app_nil_r.
Qed.

Lemma htmlify_plain_text_witness :
  htmlify (lit "  one " ++ [c_nl] ++ lit "two") =
    Ok (lit "one<br>" ++ [c_nl] ++ lit "two<br>" ++ [c_nl]).
Proof.
  apply (htmlify_plain_text (lit "  one " ++ [c_nl] ++ lit "two")).
  - repeat constructor.
  - repeat constructor.
Defined.

(** ** The marker passes *)

Lemma escape_plain s : Forall (fun x => escaped x = false) s -> escape s = s.
Proof.
  induction 1 as [|x s Hx _ IH]; [reflexivity|].
  rewrite escape_cons, IH. unfold esc1. unfold escaped in Hx.
  repeat (apply orb_false_elim in Hx; destruct Hx as [Hx ?]).
  repeat match goal with E : (x =? _) = false |- _ => rewrite E; clear E end.
  reflexivity.
Qed.

Lemma three_patterns p :
  p = em_pat \/ p = strong_pat \/ p = code_pat ->
  exists o ol cl, p_open p = o :: ol /\ p_close p = p_excl p :: cl.
Proof.
  intros [-> | [-> | ->]]; cbv [p_open p_close p_excl em_pat strong_pat code_pat];
    do 3 eexists; split; reflexivity.
Qed.

(** A delimiter of one character that does not occur in a text is no
    character of it. *)
Lemma count_single c s : count [c] s = O -> ~ In c s.
Proof.
  induction s as [|x s IH]; [auto|]. cbn [count starts_with].
  rewrite andb_true_r. destruct (N.eqb_spec c x); [discriminate|].
  intros H [E|Hin]; [congruence | now apply IH].
Qed.

(** The code pass copies a text in which its opening delimiter does not
    occur, when no [=] comes right after that text. *)
Lemma code_pass_before (pre b : str) :
  count (p_open code_pat) pre = O -> headb is_eq b = false ->
  sub code_pat (pre ++ b) = pre ++ sub code_pat b.
Proof.
  intros Hc Hb. induction pre as [|x pre IH]; [reflexivity|].
  cbn [count] in Hc.
  destruct (starts_with (p_open code_pat) (x :: pre)) eqn:Es; [discriminate|].
  cbn [app]. rewrite <- (IH Hc). apply sub_skip.
  destruct (match_at code_pat (x :: pre ++ b)) as [[run rest]|] eqn:E; [|reflexivity].
  exfalso. apply match_at_sound in E. destruct E as (E & _ & _).
  cbn in E. injection E as Ex E. subst x.
  destruct pre as [|y pre]; cbn [app] in E.
  - subst b. discriminate Hb.
  - injection E as Ey _. subst y. discriminate Es.
Qed.

(** X7.  In each of the three passes, the first delimited span of the text
    is replaced as a whole: when the opening delimiter does not occur in what
    stands before the span, that text is copied, the span (an opening
    delimiter, a non-empty run without the excluded character, a closing
    delimiter) becomes the template around the run, and the pass goes on
    after the closing delimiter.  For the code pass the text before the span
    may hold spaces and [=], as long as no [=] follows a space. *)
Theorem sub_replaces_first_span (p : pattern) (pre run rest : str) :
  p = em_pat \/ p = strong_pat \/ p = code_pat ->
  count (p_open p) pre = O ->
  run <> [] ->
  Forall (fun x => x <> p_excl p) run ->
  sub p (pre ++ p_open p ++ run ++ p_close p ++ rest) =
    pre ++ r_left p ++ run ++ r_right p ++ sub p rest.
Proof.
  intros Hp Hpre Hne Hrun.
  destruct (three_patterns p Hp) as (o & ol & cl & Eo & Ec).
  assert (E : sub p (pre ++ p_open p ++ run ++ p_close p ++ rest)
              = pre ++ sub p (p_open p ++ run ++ p_close p ++ rest)).
  { destruct Hp as [-> | [-> | ->]].
    - apply (sub_through em_pat c_slash []); [reflexivity|].
      now apply count_single.
    - apply (sub_through strong_pat c_star []); [reflexivity|].
      now apply count_single.
    - now apply code_pass_before. }
  rewrite E. f_equal. apply sub_match. now apply (match_at_complete p cl).
Qed.

Lemma sub_replaces_first_span_witness :
  sub code_pat (lit "a=b, use the" ++ p_open code_pat ++ lit "foo" ++ p_close code_pat
                ++ lit "function =x= here") =
    lit "a=b, use the" ++ r_left code_pat ++ lit "foo" ++ r_right code_pat
    ++ sub code_pat (lit "function =x= here").
Proof.
  apply (sub_replaces_first_span code_pat (lit "a=b, use the") (lit "foo")
           (lit "function =x= here")).
  - tauto.
  - reflexivity.
  - discriminate.
  - repeat constructor; discriminate.
Defined.

(** X8.  A text with nothing to escape in which the slash and the equals
    sign occur at most once each, and the star at most once after the
    leading stars, has no span to replace: the three passes leave it as
    it is, and [htmlify] renders the text, less its leading stars, line by
    line. *)
Theorem htmlify_unpaired_markers (text : str) :
  Forall (fun x => escaped x = false) text ->
  (occ c_slash text <= 1)%nat ->
  (occ c_star (lstrip_stars text) <= 1)%nat ->
  (occ c_eq text <= 1)%nat ->
  inline (escape (lstrip_stars text)) = lstrip_stars text
  /\ htmlify text = render (lstrip_stars text).
Proof.
  intros He Hs Hst Hq.
  assert (E : inline (escape (lstrip_stars text)) = lstrip_stars text).
  { unfold lstrip_stars in *.
    rewrite escape_plain by (now apply drop_while_Forall).
    unfold inline.
    rewrite (sub_needs_two em_pat c_slash);
      [| cbv; lia | cbv; lia | rewrite drop_while_occ by reflexivity; exact Hs].
    rewrite (sub_needs_two strong_pat c_star); [| cbv; lia | cbv; lia | exact Hst].
    rewrite (sub_needs_two code_pat c_eq);
      [| cbv; lia | cbv; lia | rewrite drop_while_occ by reflexivity; exact Hq].
    reflexivity. }
  split; [exact E|]. unfold htmlify. now rewrite E.
Qed.

Lemma htmlify_unpaired_markers_witness :
  inline (escape (lstrip_stars (lit "** 3/4 = x * y"))) = lstrip_stars (lit "** 3/4 = x * y")
  /\ htmlify (lit "** 3/4 = x * y") = render (lstrip_stars (lit "** 3/4 = x * y")).
Proof.
  apply (htmlify_unpaired_markers (lit "** 3/4 = x * y")).
  - repeat constructor.
  - vm_compute. lia.
  - vm_compute. lia.
  - vm_compute. lia.
Defined.

(** X9.  A word of the input is never lost: a text without white space,
    without a marker and without a character that is escaped, which does not
    start with a hyphen, occurs in the output wherever the input holds it. *)
Theorem htmlify_keeps_words (w text : str) :
  inert w = true ->
  Forall (fun x => escaped x = false) w ->
  contains w text ->
  exists out, htmlify text = Ok out /\ contains w out.
Proof.
  intros Hi He H.
  destruct (htmlify_returns text) as [out E]. exists out. split; [exact E|].
  unfold htmlify in E. apply (render_contains w _ _ Hi) in E; [exact E|].
  apply inline_contains; [exact Hi|].
  rewrite <- (escape_plain w He). apply escape_contains.
  unfold lstrip_stars. apply drop_while_contains; [|exact H].
  destruct (inert_head w Hi) as (y & w' & -> & _ & _).
  destruct (inert_char (y :: w') y Hi (or_introl eq_refl)) as (_ & _ & Hs & _).
  destruct (N.eqb_spec c_star y); [congruence | reflexivity].
Qed.

Lemma htmlify_keeps_words_witness :
  exists out, htmlify (lit "  - see *the* cell-wall/membrane") = Ok out
              /\ contains (lit "cell-wall") out.
Proof.
  apply (htmlify_keeps_words (lit "cell-wall") (lit "  - see *the* cell-wall/membrane")).
  - reflexivity.
  - repeat constructor.
  - exists (lit "  - see *the* "), (lit "/membrane"). reflexivity.
Defined.

(** ** More on the line loop *)

(** X16.  The draining loop ends with the stack empty, having written one
    closing tag for each level that was on it; on an empty stack it writes
    nothing. *)
Theorem drain_closes_every_level (st : state) :
  drain st =
    Ok {| list_levels := [];
          out_text := out_text st ++ closes (length (list_levels st)) |}
  /\ count tag_ul_end (closes (length (list_levels st))) = length (list_levels st)
  /\ (list_levels st = [] -> drain st = Ok st).
Proof.
  split; [apply drain_ok|]. split; [apply count_ul_end_closes|].
  intros H. unfold drain. now apply drain_loop_nil.
Qed.

Lemma drain_closes_every_level_witness :
  list_levels {| list_levels := []; out_text := lit "a<br>" |} = []
  /\ drain {| list_levels := []; out_text := lit "a<br>" |}
     = Ok {| list_levels := []; out_text := lit "a<br>" |}.
Proof.
  split; [reflexivity|].
  exact (proj2 (proj2 (drain_closes_every_level
                         {| list_levels := []; out_text := lit "a<br>" |})) eq_refl).
Defined.

(** X17.  After any number of the lines of a block, the output so far holds
    exactly as many opening list tags more than closing ones as there are
    levels on the stack: at no line boundary are more lists closed than were
    opened. *)
Theorem loop_prefix_balance (text : str) (done rest : list str) :
  split_nl (inline (escape (lstrip_stars text))) = done ++ rest ->
  exists st,
    loop {| list_levels := []; out_text := [] |} done = Ok st
    /\ count tag_ul (out_text st)
       = (count tag_ul_end (out_text st) + length (list_levels st))%nat.
Proof.
  intros E.
  destruct (loop_total done {| list_levels := []; out_text := [] |}) as [st Hst].
  exists st. split; [exact Hst|].
  assert (Hl : Forall (tagged inline_tags) (done ++ rest)).
  { rewrite <- E. apply tagged_lines; [|apply inline_tagged].
    apply clean_all; [apply inline_incl_all | reflexivity]. }
  apply Forall_app in Hl. destruct Hl as [Hl _].
  apply (loop_balanced done _ st Hl) in Hst; [now destruct Hst|].
  split; [constructor | reflexivity].
Qed.

Lemma loop_prefix_balance_witness :
  split_nl (inline (escape (lstrip_stars
              (lit "- a" ++ [c_nl] ++ lit "  - b" ++ [c_nl] ++ lit "c"))))
  = [lit "- a"; lit "  - b"] ++ [lit "c"]
  /\ exists st,
       loop {| list_levels := []; out_text := [] |} [lit "- a"; lit "  - b"] = Ok st
       /\ count tag_ul (out_text st)
          = (count tag_ul_end (out_text st) + length (list_levels st))%nat.
Proof.
  split; [reflexivity|].
  apply (loop_prefix_balance (lit "- a" ++ [c_nl] ++ lit "  - b" ++ [c_nl] ++ lit "c")
           [lit "- a"; lit "  - b"] [lit "c"]).
  reflexivity.
Defined.

(** X18.  Two list lines of the same depth can land in different lists: when
    the first of them dedents from a deeper level and the level below that
    one is shallower than the line, the first line only closes the deeper
    list and is put in the shallower one, and the second line, finding a
    smaller level on top, opens a new list of its own. *)
Theorem dedent_splits_siblings (lv : list nat) (out l1 l2 : str) :
  is_list_item l1 = true -> is_list_item l2 = true ->
  depth l2 = depth l1 ->
  lv <> [] -> (depth l1 < last lv O)%nat ->
  removelast lv = [] \/ (last (removelast lv) O < depth l1)%nat ->
  loop {| list_levels := lv; out_text := out |} [l1; l2] =
    Ok {| list_levels := removelast lv ++ [depth l1];
          out_text := out ++ tag_ul_end ++ item_html l1 ++ tag_ul ++ item_html l2 |}.
Proof.
  intros H1 H2 Hd Hne Hlt Hbelow. cbn [loop].
  destruct (step_item {| list_levels := lv; out_text := out |} l1 H1)
    as (st1 & Hadj & ->).
  inversion Hadj as [Hopen | _ _ | _ Hsame]; subst; cbn [list_levels out_text] in *.
  - destruct Hopen as [-> | Hgt]; [contradiction | lia].
  - cbn [bind]. rewrite step_open; [cbn [bind] | exact H2 | now rewrite Hd].
    rewrite Hd. unfold item_html. now rewrite <- !app_assoc.
  - lia.
Qed.

Lemma dedent_splits_siblings_witness :
  loop {| list_levels := [0; 4]%nat; out_text := [] |} [lit "  - c"; lit "  - d"] =
    Ok {| list_levels := removelast [0; 4]%nat ++ [depth (lit "  - c")];
          out_text := [] ++ tag_ul_end ++ item_html (lit "  - c") ++ tag_ul
                        ++ item_html (lit "  - d") |}.
Proof.
  apply (dedent_splits_siblings [0; 4]%nat [] (lit "  - c") (lit "  - d"));
    try reflexivity; try discriminate.
  - vm_compute. lia.
  - right. vm_compute. lia.
Defined.

(** ** A newline at the end *)

Lemma strip_lit_snoc l x : ~ In x l -> forall s,
  strip_lit l (s ++ [x]) =
    match strip_lit l s with
    | Some r => Some (r ++ [x])
    | None => None
    end.
Proof.
  induction l as [|a l IH]; intros Hx s; [reflexivity|].
  destruct s as [|y s]; cbn [app strip_lit].
  - destruct (N.eqb_spec a x); [|reflexivity]. exfalso. apply Hx. now left.
  - destruct (a =? y); [|reflexivity]. apply IH. intros H. apply Hx. now right.
Qed.

Lemma match_run_snoc c close x :
  close <> [] -> ~ In x close -> forall s,
  match_run c close (s ++ [x]) =
    match match_run c close s with
    | Some (run, rest) => Some (run, rest ++ [x])
    | None => None
    end.
Proof.
  intros Hne Hx.
  assert (Hnil : strip_lit close [] = None)
    by (destruct close; [contradiction | reflexivity]).
  assert (Hone : strip_lit close [x] = None)
    by (change [x] with ([] ++ [x]); rewrite (strip_lit_snoc close x Hx []), Hnil;
        reflexivity).
  induction s as [|y s IH].
  - cbn [app match_run]. rewrite Hone, Hnil. cbn [option_map].
    destruct (x =? c); reflexivity.
  - cbn [app match_run]. rewrite IH.
    change (y :: s ++ [x]) with ((y :: s) ++ [x]).
    rewrite (strip_lit_snoc close x Hx (y :: s)).
    destruct (y =? c).
    + destruct (strip_lit close (y :: s)); reflexivity.
    + destruct (match_run c close s) as [[run rest]|]; [reflexivity|].
      destruct (strip_lit close (y :: s)); reflexivity.
Qed.

Lemma match_at_snoc p x :
  p_close p <> [] -> ~ In x (p_open p) -> ~ In x (p_close p) -> forall s,
  match_at p (s ++ [x]) =
    match match_at p s with
    | Some (run, rest) => Some (run, rest ++ [x])
    | None => None
    end.
Proof.
  intros Hne Ho Hc s. unfold match_at. rewrite (strip_lit_snoc _ x Ho).
  destruct (strip_lit (p_open p) s) as [[|y s']|]; [|cbn [app]|reflexivity].
  - cbn [app]. destruct (x =? p_excl p); [reflexivity|].
    cbn [match_run]. destruct (p_close p); [contradiction | reflexivity].
  - destruct (y =? p_excl p); [reflexivity|].
    rewrite (match_run_snoc _ _ x Hne Hc).
    destruct (match_run (p_excl p) (p_close p) s') as [[run rest]|]; reflexivity.
Qed.

(** A character that is in neither literal of the pattern, put at the end of
    the text, comes out at the end. *)
Lemma sub_snoc p x :
  p_close p <> [] -> ~ In x (p_open p) -> ~ In x (p_close p) ->
  forall s, sub p (s ++ [x]) = sub p s ++ [x].
Proof.
  intros Hne Ho Hc.
  apply (sub_rect' p (fun s out => sub p (s ++ [x]) = out ++ [x])).
  - cbn [app]. apply sub_skip. change [x] with ([] ++ [x]).
    rewrite (match_at_snoc p x Hne Ho Hc []).
    unfold match_at. cbn [strip_lit]. destruct (p_open p); reflexivity.
  - intros y s E IH. cbn [app]. rewrite sub_skip; [now rewrite IH|].
    change (y :: s ++ [x]) with ((y :: s) ++ [x]).
    now rewrite (match_at_snoc p x Hne Ho Hc), E.
  - intros s run rest E IH.
    assert (E' : match_at p (s ++ [x]) = Some (run, rest ++ [x]))
      by (now rewrite (match_at_snoc p x Hne Ho Hc), E).
    rewrite (sub_match _ _ _ _ E'), IH. now rewrite <- !app_assoc.
Qed.

Lemma split_nl_snoc s : split_nl (s ++ [c_nl]) = split_nl s ++ [[]].
Proof.
  induction s as [|x s IH]; [reflexivity|]. cbn [app split_nl]. rewrite IH.
  destruct (x =? c_nl); [reflexivity|].
  pose proof (split_nl_nonempty s). destruct (split_nl s); [contradiction | reflexivity].
Qed.

Lemma loop_app : forall l1 l2 st,
  loop st (l1 ++ l2) = st' <- loop st l1 ;; loop st' l2.
Proof.
  induction l1 as [|line l1 IH]; intros l2 st; cbn [app loop bind]; [reflexivity|].
  destruct (step st line) as [st1|e]; cbn [bind]; [apply IH | reflexivity].
Qed.

(** X19.  A newline put at the end of the input puts one empty line at the
    end of the output: the result is that of the input without it, followed
    by a line break tag and a newline. *)
Theorem htmlify_trailing_newline (text : str) :
  exists out,
    htmlify text = Ok out
    /\ htmlify (text ++ [c_nl]) = Ok (out ++ lit "<br>" ++ [c_nl]).
Proof.
  destruct (htmlify_returns text) as [out E]. exists out. split; [exact E|].
  unfold htmlify in *.
  assert (Et : inline (escape (lstrip_stars (text ++ [c_nl])))
               = inline (escape (lstrip_stars text)) ++ [c_nl]).
  { unfold lstrip_stars. rewrite drop_while_snoc by reflexivity.
    rewrite escape_app. change (escape [c_nl]) with [c_nl].
    unfold inline.
    rewrite (sub_snoc em_pat), (sub_snoc strong_pat), (sub_snoc code_pat);
      try reflexivity; try discriminate; cbv; intuition discriminate. }
  rewrite Et. set (t := inline _) in *. unfold render in *.
  rewrite split_nl_snoc, loop_app.
  destruct (loop _ (split_nl t)) as [st|e]; [|discriminate].
  cbn [bind] in *. rewrite drain_ok in E. cbn [bind] in E. apply Ok_inj in E.
  cbn [loop]. rewrite step_plain by reflexivity. cbn [bind].
  rewrite drain_ok. cbn [bind out_text list_levels length closes].
  subst out. cbn [out_text]. change (strip []) with (@nil char).
  now rewrite app_nil_r, <- !app_assoc.
Qed.

(** * [main]: the deck and the identifiers *)

Lemma str_eqb_refl a : str_eqb a a = true.
Proof. induction a as [|x a IH]; [reflexivity|]. cbn. now rewrite N.eqb_refl. Qed.

Lemma str_eqb_eq a : forall b, str_eqb a b = true -> a = b.
Proof.
  induction a as [|x a IH]; intros [|y b] H; try discriminate; [reflexivity|].
  cbn in H. apply andb_true_iff in H. destruct H as [Hx H].
  apply N.eqb_eq in Hx. subst. f_equal. now apply IH.
Qed.

Lemma get_set_same k v ps : get_property k (set_property k v ps) = Some v.
Proof.
  induction ps as [|[k' v'] ps IH]; cbn [set_property get_property].
  - now rewrite str_eqb_refl.
  - destruct (str_eqb k' k) eqn:E; cbn [get_property]; rewrite E; [reflexivity | exact IH].
Qed.

Lemma get_set_other k k' v ps :
  str_eqb k' k = false ->
  get_property k' (set_property k v ps) = get_property k' ps.
Proof.
  intros Hk. induction ps as [|[k0 v0] ps IH]; cbn [set_property get_property].
  - destruct (str_eqb k k') eqn:E; [|reflexivity].
    apply str_eqb_eq in E. subst. now rewrite str_eqb_refl in Hk.
  - destruct (str_eqb k0 k) eqn:E; cbn [get_property].
    + apply str_eqb_eq in E. subst k0.
      destruct (str_eqb k k') eqn:E'; [|reflexivity].
      apply str_eqb_eq in E'. subst. now rewrite str_eqb_refl in Hk.
    + destruct (str_eqb k0 k'); [reflexivity | exact IH].
Qed.

Lemma htmlify_html s : htmlify s = Ok (html s).
Proof. unfold html. destruct (htmlify_returns s) as [out ->]. reflexivity. Qed.



Section MainFacts.
Variable namespace : Type.
Variable uuid5 : namespace -> str -> str.
Variable NAMESPACE_DNS : namespace.


Lemma assign_id_same n :
  heading (assign_id namespace uuid5 NAMESPACE_DNS n) = heading n
  /\ body (assign_id namespace uuid5 NAMESPACE_DNS n) = body n
  /\ tags (assign_id namespace uuid5 NAMESPACE_DNS n) = tags n
  /\ level (assign_id namespace uuid5 NAMESPACE_DNS n) = level n.
Proof. unfold assign_id. destruct (lacks_id n); repeat split. Qed.

Lemma kept_exported c e :
  exported (kept namespace uuid5 NAMESPACE_DNS c e) = exported e.
Proof.
  unfold kept.
  destruct (is_org_node e && negb (no_export (nd e))) eqn:E; [|reflexivity].
  unfold exported. cbn [with_node is_org_node nd].
  destruct c; [|reflexivity].
  destruct (assign_id_same (nd e)) as (_ & Hb & Ht & _).
  unfold no_export. now rewrite Hb, Ht.
Qed.

Lemma export_entry_eq c deck e :
  export_entry namespace uuid5 NAMESPACE_DNS c deck e =
    Ok (kept namespace uuid5 NAMESPACE_DNS c e,
        if exported e then deck ++ [note_of (kept namespace uuid5 NAMESPACE_DNS c e)]
        else deck).
Proof.
  unfold export_entry, kept, exported.
  destruct (is_org_node e) eqn:Eo; [|reflexivity].
  destruct (no_export (nd e)) eqn:En; [reflexivity|]. cbn [negb andb].
  set (n := if c then assign_id namespace uuid5 NAMESPACE_DNS (nd e) else nd e).
  assert (Hb : body n = body (nd e))
    by (subst n; destruct c; [apply assign_id_same | reflexivity]).
  rewrite !htmlify_html. cbn [bind]. rewrite <- Hb.
  destruct (str_eqb (body n) []); reflexivity.
Qed.

Lemma export_loop_eq c : forall org deck,
  export_loop namespace uuid5 NAMESPACE_DNS c deck org =
    Ok (map (kept namespace uuid5 NAMESPACE_DNS c) org,
        deck ++ map note_of
                  (filter exported (map (kept namespace uuid5 NAMESPACE_DNS c) org))).
Proof.
  induction org as [|e org IH]; intros deck; cbn [export_loop map filter].
  - now rewrite app_nil_r.
  - rewrite export_entry_eq. cbn [bind fst snd]. rewrite IH. cbn [bind fst snd].
    rewrite kept_exported. destruct (exported e); cbn [map]; [|reflexivity].
    now rewrite <- app_assoc.
Qed.

Lemma main_run_eq c rw org :
  main_run namespace uuid5 NAMESPACE_DNS c rw org =
    Ok (map note_of (filter exported (map (kept namespace uuid5 NAMESPACE_DNS c) org)),
        if rw then Some (rewrite_text (map (kept namespace uuid5 NAMESPACE_DNS c) org))
        else None).
Proof. unfold main_run. rewrite export_loop_eq. reflexivity. Qed.

Lemma filter_kept c org :
  filter exported (map (kept namespace uuid5 NAMESPACE_DNS c) org)
  = map (kept namespace uuid5 NAMESPACE_DNS c) (filter exported org).
Proof.
  induction org as [|e org IH]; [reflexivity|]. cbn [map filter].
  rewrite kept_exported. destruct (exported e); cbn [map]; now rewrite IH.
Qed.

Lemma kept_false e : kept namespace uuid5 NAMESPACE_DNS false e = e.
Proof.
  unfold kept. destruct (is_org_node e && negb (no_export (nd e))); [|reflexivity].
  destruct e as [o [h b l t ps] rh rb st]. reflexivity.
Qed.

Lemma kept_has_id e :
  lacks_id (nd e) = false -> kept namespace uuid5 NAMESPACE_DNS true e = e.
Proof.
  intros H. unfold kept, assign_id. rewrite H.
  destruct (is_org_node e && negb (no_export (nd e))); [|reflexivity].
  destruct e as [o [h b l t ps] rh rb st]. reflexivity.
Qed.

Lemma kept_fields c e :
  fields (note_of (kept namespace uuid5 NAMESPACE_DNS c e))
  = [html (heading (nd e)); html (body (nd e))].
Proof.
  unfold note_of, kept. cbn [fields].
  destruct (is_org_node e && negb (no_export (nd e))); [|reflexivity].
  cbn [with_node nd]. destruct c; [|reflexivity].
  destruct (assign_id_same (nd e)) as (-> & -> & _). reflexivity.
Qed.

(** The identifier a heading ends with under [--create_ids]. *)
Lemma kept_id e :
  is_org_node e = true -> no_export (nd e) = false ->
  get_property key_ID (properties (nd (kept namespace uuid5 NAMESPACE_DNS true e))) =
    Some (if lacks_id (nd e) then uuid5 NAMESPACE_DNS (heading (nd e))
          else id_text (nd e)).
Proof.
  intros Ho Hn. unfold kept, assign_id. rewrite Ho, Hn. cbn [negb andb with_node nd].
  unfold lacks_id, id_text in *.
  destruct (get_property key_ID (properties (nd e))) as [v|] eqn:Eg.
  - destruct (str_eqb v []); [|exact Eg].
    cbn [with_properties properties]. apply get_set_same.
  - cbn [with_properties properties]. apply get_set_same.
Qed.

(** X10.  The deck gets exactly one note for each heading that is not tagged
    [no-export] and whose body is not empty, in the order of the document;
    its two fields are [htmlify] of the heading and of the body.  The root
    node, the excluded headings and the headings without a body add nothing,
    and [--create_ids] and [--rewrite_orgfile] change no field. *)
Theorem main_notes_fields (create_ids rewrite_orgfile : bool) (org : list entry) :
  exists notes text,
    main_run namespace uuid5 NAMESPACE_DNS create_ids rewrite_orgfile org = Ok (notes, text)
    /\ map fields notes =
         map (fun e => [html (heading (nd e)); html (body (nd e))])
             (filter exported org)
    /\ forall s, htmlify s = Ok (html s).
Proof.
  rewrite main_run_eq. do 2 eexists. split; [reflexivity|]. split.
  - rewrite filter_kept, !map_map. apply map_ext. intros e. apply kept_fields.
  - apply htmlify_html.
Qed.

(** X11.  Without [--create_ids] no node is changed: the file is rewritten
    from the nodes as they were loaded.  The guid of each note, as
    [note.guid] and [guid_for_fields] give it, is the [ID] property of its
    node, also when that is the empty string; for a node without the
    property the note is built with [guid=None], and its guid is genanki's
    hash of its two fields, the transformed heading and body. *)
Theorem main_without_create_ids (guid_for : list str -> str)
    (rewrite_orgfile : bool) (org : list entry) :
  exists notes,
    main_run namespace uuid5 NAMESPACE_DNS false rewrite_orgfile org =
      Ok (notes, if rewrite_orgfile then Some (rewrite_text org) else None)
    /\ map (note_guid guid_for) notes =
         map (fun e => match get_property key_ID (properties (nd e)) with
                       | Some v => v
                       | None => guid_for [html (heading (nd e)); html (body (nd e))]
                       end)
             (filter exported org)
    /\ forall fs,
         map (fun n => guid_for_fields guid_for n fs) notes = map (note_guid guid_for) notes.
Proof.
  rewrite main_run_eq.
  assert (E : map (kept namespace uuid5 NAMESPACE_DNS false) org = org)
    by (rewrite <- (map_id org) at 2; apply map_ext, kept_false).
  rewrite E. eexists. split; [reflexivity|]. split; [|reflexivity].
  rewrite map_map. apply map_ext. intros e. reflexivity.
Qed.

(** X12.  With [--create_ids] every note has a guid: the [ID] property the
    node already had when that is not empty, and otherwise the identifier
    generated from the heading under [NAMESPACE_DNS]; a non-empty [ID] is
    never replaced. *)
Theorem main_with_create_ids (rewrite_orgfile : bool) (org : list entry) :
  exists notes text,
    main_run namespace uuid5 NAMESPACE_DNS true rewrite_orgfile org = Ok (notes, text)
    /\ map guid notes =
         map (fun e => Some (if lacks_id (nd e)
                             then generate_id namespace uuid5 NAMESPACE_DNS (nd e)
                             else id_text (nd e)))
             (filter exported org).
Proof.
  rewrite main_run_eq. do 2 eexists. split; [reflexivity|].
  rewrite filter_kept, !map_map. apply map_ext_in. intros e He.
  apply filter_In in He. destruct He as [_ He]. unfold exported in He.
  apply andb_true_iff in He. destruct He as [He _].
  apply andb_true_iff in He. destruct He as [Ho Hn]. apply negb_true_iff in Hn.
  cbn [note_of guid]. now apply kept_id.
Qed.

(** X13.  When every heading that is not tagged [no-export] already has a
    non-empty [ID], a run with [--create_ids] gives the same deck and the
    same file as a run without it. *)
Theorem main_create_ids_idle (rewrite_orgfile : bool) (org : list entry) :
  Forall (fun e => is_org_node e = true -> no_export (nd e) = false ->
                   lacks_id (nd e) = false) org ->
  main_run namespace uuid5 NAMESPACE_DNS true rewrite_orgfile org
  = main_run namespace uuid5 NAMESPACE_DNS false rewrite_orgfile org.
Proof.
  intros H. rewrite !main_run_eq.
  assert (E : map (kept namespace uuid5 NAMESPACE_DNS true) org
              = map (kept namespace uuid5 NAMESPACE_DNS false) org).
  { apply map_ext_in. intros e He. rewrite Forall_forall in H. specialize (H e He).
    rewrite kept_false.
    destruct (is_org_node e) eqn:Eo, (no_export (nd e)) eqn:En;
      try (unfold kept; rewrite Eo, ?En; reflexivity).
    apply kept_has_id; auto. }
  now rewrite E.
Qed.

(** X14.  Identifiers are stable over runs: when the generator never
    returns the empty string, running the loop again on the nodes a run with
    [--create_ids] left, with or without the option, changes no node and
    makes the same notes. *)
Theorem export_loop_again (create_ids : bool) (org org' : list entry)
    (notes : list note) :
  (forall h, uuid5 NAMESPACE_DNS h <> []) ->
  export_loop namespace uuid5 NAMESPACE_DNS true [] org = Ok (org', notes) ->
  export_loop namespace uuid5 NAMESPACE_DNS create_ids [] org' = Ok (org', notes).
Proof.
  intros Hu E. rewrite export_loop_eq in E. apply Ok_inj in E.
  injection E as <- <-. rewrite export_loop_eq. cbn [app].
  assert (Hk : forall e,
             kept namespace uuid5 NAMESPACE_DNS create_ids
                  (kept namespace uuid5 NAMESPACE_DNS true e)
             = kept namespace uuid5 NAMESPACE_DNS true e).
  { intros e. destruct create_ids; [|apply kept_false].
    destruct (is_org_node e) eqn:Eo;
      [|unfold kept; rewrite Eo; cbn [andb]; now rewrite Eo].
    destruct (no_export (nd e)) eqn:En;
      [unfold kept; rewrite Eo, En; cbn [andb negb]; now rewrite Eo, En|].
    apply kept_has_id. unfold lacks_id. rewrite (kept_id e Eo En).
    destruct (lacks_id (nd e)) eqn:El.
    - destruct (uuid5 NAMESPACE_DNS (heading (nd e))) eqn:Eu; [|reflexivity].
      now apply Hu in Eu.
    - unfold lacks_id, id_text in *.
      destruct (get_property key_ID (properties (nd e))); [exact El | discriminate]. }
  assert (E : map (kept namespace uuid5 NAMESPACE_DNS create_ids)
                  (map (kept namespace uuid5 NAMESPACE_DNS true) org)
              = map (kept namespace uuid5 NAMESPACE_DNS true) org)
    by (rewrite map_map; apply map_ext, Hk).
  now rewrite E.
Qed.

End MainFacts.

Lemma main_create_ids_idle_witness :
  Forall (fun e => is_org_node e = true -> no_export (nd e) = false ->
                   lacks_id (nd e) = false) [sample_root; sample_with_id]
  /\ main_run unit sample_uuid5 tt true true [sample_root; sample_with_id]
     = main_run unit sample_uuid5 tt false true [sample_root; sample_with_id].
Proof.
  assert (H : Forall (fun e => is_org_node e = true -> no_export (nd e) = false ->
                               lacks_id (nd e) = false) [sample_root; sample_with_id])
    by (repeat constructor; discriminate).
  split; [exact H|].
  exact (main_create_ids_idle unit sample_uuid5 tt true [sample_root; sample_with_id] H).
Defined.

Lemma export_loop_again_witness :
  (forall h, sample_uuid5 tt h <> [])
  /\ export_loop unit sample_uuid5 tt true [] sample_org
     = Ok (map (kept unit sample_uuid5 tt true) sample_org,
           map note_of (filter exported (map (kept unit sample_uuid5 tt true) sample_org)))
  /\ export_loop unit sample_uuid5 tt false []
       (map (kept unit sample_uuid5 tt true) sample_org)
     = Ok (map (kept unit sample_uuid5 tt true) sample_org,
           map note_of (filter exported (map (kept unit sample_uuid5 tt true) sample_org))).
Proof.
  assert (Hu : forall h, sample_uuid5 tt h <> []) by (intros h; cbv; discriminate).
  assert (E : export_loop unit sample_uuid5 tt true [] sample_org
              = Ok (map (kept unit sample_uuid5 tt true) sample_org,
                    map note_of
                      (filter exported (map (kept unit sample_uuid5 tt true) sample_org))))
    by (vm_compute; reflexivity).
  split; [exact Hu|]. split; [exact E|].
  exact (export_loop_again unit sample_uuid5 tt false sample_org _ _ Hu E).
Defined.


(** * Escaping, counted *)

Lemma esc1_counts x :
  (escaped x = true /\ occ c_amp (esc1 x) = 1%nat /\ occ c_semi (esc1 x) = 1%nat)
  \/ (escaped x = false /\ esc1 x = [x] /\ x <> c_amp).
Proof.
  unfold escaped, esc1.
  destruct (N.eqb_spec x c_amp) as [->|H1]; [left; repeat split|].
  destruct (x =? c_lt); [left; repeat split|].
  destruct (x =? c_gt); [left; repeat split|].
  destruct (x =? c_quot); [left; repeat split|].
  destruct (x =? c_apos); [left; repeat split|].
  right. repeat split. exact H1.
Qed.

(** Every character that is rewritten gives one ampersand, and the other
    characters give none. *)
Lemma escape_amp s : occ c_amp (escape s) = specials s.
Proof.
  induction s as [|x s IH]; [reflexivity|].
  rewrite escape_cons, occ_app, IH. unfold specials. cbn [filter].
  destruct (esc1_counts x) as [(-> & -> & _) | (-> & -> & Hx)]; [reflexivity|].
  unfold occ. cbn [count_occ]. destruct (N.eq_dec x c_amp); [contradiction | reflexivity].
Qed.

(** Every character that is rewritten gives one semicolon more. *)
Lemma escape_semi s : occ c_semi (escape s) = (occ c_semi s + specials s)%nat.
Proof.
  induction s as [|x s IH]; [reflexivity|].
  rewrite escape_cons, occ_app, IH. change (x :: s) with ([x] ++ s).
  rewrite (occ_app c_semi [x] s). unfold specials. cbn [app filter].
  destruct (esc1_counts x) as [(E & _ & ->) | (-> & -> & _)].
  - rewrite E. cbn [length].
    assert (occ c_semi [x] = O); [|lia].
    unfold occ. cbn [count_occ]. destruct (N.eq_dec x c_semi) as [->|]; [|reflexivity].
    discriminate.
  - lia.
Qed.

Lemma specials_lstrip_stars s : specials (lstrip_stars s) = specials s.
Proof.
  unfold lstrip_stars, specials. induction s as [|x s IH]; [reflexivity|].
  cbn [drop_while]. destruct (N.eqb_spec c_star x) as [<-|]; [|reflexivity].
  exact IH.
Qed.

(** ** A character that the line loop neither removes nor writes *)

Lemma occ_rev c s : occ c (rev s) = occ c s.
Proof. apply count_occ_rev. Qed.

Lemma strip_occ c s : isspace c = false -> occ c (strip s) = occ c s.
Proof.
  intros Hc. unfold strip, rstrip, lstrip.
  rewrite occ_rev, (drop_while_occ isspace c _ Hc), occ_rev.
  now apply drop_while_occ.
Qed.

Lemma item_text_occ c line :
  is_list_item line = true -> isspace c = false -> c <> c_dash ->
  occ c (item_text line) = occ c line.
Proof.
  intros Hi Hc Hd. rewrite <- (strip_occ c line Hc), (strip_item line Hi).
  unfold occ. cbn [count_occ]. destruct (N.eq_dec c_dash c); [congruence | reflexivity].
Qed.

Lemma occ_closes c k : occ c tag_ul_end = O -> occ c (closes k) = O.
Proof.
  intros H. induction k as [|k IH]; [reflexivity|]. cbn [closes].
  now rewrite occ_app, H, IH.
Qed.

Section KeptChar.
Variable c : char.
Hypothesis c_space : isspace c = false.
Hypothesis c_dash' : c <> c_dash.
Hypothesis c_tags : Forall (fun t => occ c t = O) block_tags.

Lemma c_block t : In t block_tags -> occ c t = O.
Proof. intros H. rewrite Forall_forall in c_tags. now apply c_tags. Qed.

Lemma c_newline : occ c [c_nl] = O.
Proof.
  unfold occ. cbn [count_occ]. destruct (N.eq_dec c_nl c) as [<-|]; [|reflexivity].
  discriminate.
Qed.

Lemma step_occ st line st' :
  step st line = Ok st' ->
  occ c (out_text st') = (occ c (out_text st) + occ c line)%nat.
Proof.
  intros E. destruct (is_list_item line) eqn:Ei.
  - destruct (step_item st line Ei) as (st1 & Hadj & E1).
    rewrite E1 in E. apply Ok_inj in E. subst st'. cbn [out_text].
    rewrite !occ_app, (item_text_occ c line Ei c_space c_dash'), c_newline.
    rewrite (c_block (lit "<li>")), (c_block (lit "</li>")) by (cbv; tauto).
    assert (H1 : occ c (out_text st1) = occ c (out_text st)).
    { inversion Hadj; subst; cbn [out_text]; [| |reflexivity]; rewrite occ_app.
      - rewrite (c_block tag_ul) by (cbv; tauto). lia.
      - rewrite (c_block tag_ul_end) by (cbv; tauto). lia. }
    lia.
  - rewrite (step_plain st line Ei) in E. apply Ok_inj in E. subst st'.
    cbn [out_text].
    rewrite !occ_app, (strip_occ c line c_space), c_newline.
    rewrite (occ_closes c _ (c_block tag_ul_end ltac:(cbv; tauto))).
    rewrite (c_block (lit "<br>")) by (cbv; tauto). lia.
Qed.

Lemma loop_occ : forall lines st st',
  loop st lines = Ok st' ->
  occ c (out_text st') = (occ c (out_text st) + occ c (concat lines))%nat.
Proof.
  induction lines as [|line lines IH]; intros st st' E; cbn [loop concat] in *.
  - apply Ok_inj in E. subst. cbn. lia.
  - destruct (step st line) as [st1|e] eqn:E1; [|discriminate]. cbn [bind] in E.
    rewrite (IH st1 st' E), (step_occ st line st1 E1), occ_app. lia.
Qed.

Lemma concat_split_occ s : occ c (concat (split_nl s)) = occ c s.
Proof.
  induction s as [|x s IH]; [reflexivity|]. cbn [split_nl].
  destruct (N.eqb_spec x c_nl) as [->|Hx].
  - cbn [concat app]. rewrite IH. change (c_nl :: s) with ([c_nl] ++ s).
    now rewrite occ_app, c_newline.
  - pose proof (split_nl_nonempty s) as Hne.
    destruct (split_nl s) as [|l ls]; [contradiction|].
    cbn [concat app] in *. change (x :: l ++ concat ls) with ([x] ++ (l ++ concat ls)).
    rewrite (occ_app c [x] (l ++ concat ls)), IH.
    change (x :: s) with ([x] ++ s). now rewrite (occ_app c [x] s).
Qed.

Lemma render_occ text out : render text = Ok out -> occ c out = occ c text.
Proof.
  intros E. unfold render in E.
  destruct (loop _ (split_nl text)) as [st|e] eqn:El; [|discriminate].
  cbn [bind] in E. rewrite drain_ok in E. cbn [bind out_text] in E.
  apply Ok_inj in E. subst out.
  rewrite occ_app, (occ_closes c _ (c_block tag_ul_end ltac:(cbv; tauto))).
  rewrite (loop_occ _ _ _ El), concat_split_occ. cbn. lia.
Qed.
End KeptChar.

(** The ampersands and the semicolons of the output are those [html.escape]
    leaves: the passes and the line loop add and remove none. *)
Lemma htmlify_entities text out :
  htmlify text = Ok out ->
  occ c_amp out = specials text
  /\ occ c_semi out = (occ c_semi text + specials text)%nat.
Proof.
  intros E. unfold htmlify, inline in E. split.
  - rewrite (render_occ c_amp eq_refl ltac:(discriminate) ltac:(repeat constructor) _ _ E).
    rewrite !sub_occ by reflexivity.
    now rewrite escape_amp, specials_lstrip_stars.
  - rewrite (render_occ c_semi eq_refl ltac:(discriminate) ltac:(repeat constructor) _ _ E).
    rewrite !sub_occ by reflexivity.
    rewrite escape_semi, specials_lstrip_stars.
    unfold lstrip_stars. now rewrite drop_while_occ by reflexivity.
Qed.

(** ** A word around the entity *)

Lemma drop_while_head f s : headb f s = false -> drop_while f s = s.
Proof. destruct s as [|x s]; [reflexivity|]. cbn. now intros ->. Qed.

Lemma strip_no_space s : Forall (fun x => isspace x = false) s -> strip s = s.
Proof.
  intros H. unfold strip, rstrip, lstrip.
  rewrite (drop_while_head isspace s) by (destruct H as [|x s Hx _]; [reflexivity | exact Hx]).
  rewrite drop_while_head; [apply rev_involutive|].
  apply Forall_rev in H. destruct H as [|x r Hx _]; [reflexivity | exact Hx].
Qed.

Lemma not_list_item s :
  headb isspace s = false -> headb (N.eqb c_dash) s = false -> is_list_item s = false.
Proof.
  destruct s as [|x s]; [reflexivity|]. cbn [headb is_list_item].
  intros -> H. rewrite N.eqb_sym, H. reflexivity.
Qed.

Lemma word_through (pre post : str) :
  Forall (fun x => escaped x = false /\ marker x = false /\ isspace x = false) pre ->
  Forall (fun x => escaped x = false /\ marker x = false /\ isspace x = false) post ->
  headb (N.eqb c_dash) pre = false ->
  htmlify (pre ++ lit "&amp;" ++ post) =
    Ok (pre ++ lit "&amp;amp;" ++ post ++ lit "<br>" ++ [c_nl]).
Proof.
  intros Hpre Hpost Hd. unfold htmlify.
  set (t := pre ++ lit "&amp;amp;" ++ post).
  assert (Ht : Forall (fun x => marker x = false /\ isspace x = false) t).
  { subst t. repeat (apply Forall_app; split).
    - eapply Forall_impl; [|exact Hpre]. cbn. tauto.
    - repeat constructor.
    - eapply Forall_impl; [|exact Hpost]. cbn. tauto. }
  assert (E0 : lstrip_stars (pre ++ lit "&amp;" ++ post) = pre ++ lit "&amp;" ++ post).
  { unfold lstrip_stars. apply drop_while_head.
    destruct Hpre as [|x s (_ & Hm & _) _]; [reflexivity|]. cbn [app headb].
    unfold marker in Hm. apply orb_false_elim in Hm. destruct Hm as [Hm _].
    apply orb_false_elim in Hm. destruct Hm as [_ Hm]. now rewrite N.eqb_sym. }
  assert (E1 : escape (pre ++ lit "&amp;" ++ post) = t).
  { subst t. rewrite !escape_app. f_equal; [|f_equal]; try reflexivity;
      apply escape_plain; (eapply Forall_impl; [|eassumption]); cbn; tauto. }
  assert (Hc : forall c, marker c = true -> occ c t = O).
  { intros c Hm. apply occ_zero. eapply Forall_impl; [|exact Ht].
    intros x [Hx _] ->. congruence. }
  rewrite E0, E1. unfold inline.
  rewrite (sub_needs_two em_pat c_slash) by first [rewrite Hc by reflexivity; lia | cbv; lia].
  rewrite (sub_needs_two strong_pat c_star) by first [rewrite Hc by reflexivity; lia | cbv; lia].
  rewrite (sub_needs_two code_pat c_eq) by first [rewrite Hc by reflexivity; lia | cbv; lia].
  assert (Hs : Forall (fun x => isspace x = false) t)
    by (eapply Forall_impl; [|exact Ht]; cbn; tauto).
  unfold render. rewrite split_nl_line.
  - cbn [loop]. rewrite step_plain.
    + cbn [bind]. rewrite drain_ok. cbn [bind out_text list_levels length closes app].
      rewrite (strip_no_space t Hs). subst t. now rewrite app_nil_r, <- !app_assoc.
    + apply not_list_item.
      * subst t. destruct Hpre as [|x s (_ & _ & Hx) _]; [reflexivity | exact Hx].
      * subst t. destruct pre; [reflexivity | exact Hd].
  - eapply Forall_impl; [|exact Hs]. intros x Hx ->. discriminate.
Qed.

(** C5.  [htmlify] escapes the text once, before the three marker passes.
    Whenever the input holds the text [&amp;], the output holds [&amp;amp;];
    the output has one ampersand for each character of the input that
    [html.escape] rewrites and no other, and one semicolon more than the input
    for each of them, so that no entity is decoded, none is escaped a second
    time, and no tag written by a pass is escaped; and a word around the
    entity comes out with exactly [&amp;amp;] in its place. *)
Theorem htmlify_escapes_amp_again (text : str) :
  contains (lit "&amp;") text ->
  htmlify text =
    render (sub code_pat (sub strong_pat (sub em_pat (escape (lstrip_stars text)))))
  /\ (exists out, htmlify text = Ok out
        /\ contains (lit "&amp;amp;") out
        /\ occ c_amp out = specials text
        /\ occ c_semi out = (occ c_semi text + specials text)%nat)
  /\ (forall pre post,
        Forall (fun x => escaped x = false /\ marker x = false /\ isspace x = false) pre ->
        Forall (fun x => escaped x = false /\ marker x = false /\ isspace x = false) post ->
        headb (N.eqb c_dash) pre = false ->
        htmlify (pre ++ lit "&amp;" ++ post) =
          Ok (pre ++ lit "&amp;amp;" ++ post ++ lit "<br>" ++ [c_nl])).
Proof.
  intros H. split; [reflexivity|]. split; [|apply word_through].
  destruct (htmlify_returns text) as [out E]. exists out. split; [exact E|].
  split; [|now apply htmlify_entities].
  unfold htmlify in E.
  apply (render_contains (lit "&amp;amp;") _ _ eq_refl) in E; [exact E|].
  apply inline_contains; [reflexivity|].
  change (lit "&amp;amp;") with (escape (lit "&amp;")).
  apply escape_contains. unfold lstrip_stars.
  apply drop_while_contains; [reflexivity | exact H].
Qed.

Lemma htmlify_escapes_amp_again_witness :
  contains (lit "&amp;") (lit "a &amp; /b/ <c>")
  /\ htmlify (lit "a &amp; /b/ <c>")
     = Ok (lit "a &amp;amp;  <em>b</em>  &lt;c&gt;<br>" ++ [c_nl])
  /\ exists out, htmlify (lit "a &amp; /b/ <c>") = Ok out
       /\ contains (lit "&amp;amp;") out
       /\ occ c_amp out = 3%nat
       /\ occ c_semi out = (1 + 3)%nat.
Proof.
  assert (H : contains (lit "&amp;") (lit "a &amp; /b/ <c>"))
    by (exists (lit "a "), (lit " /b/ <c>"); reflexivity).
  split; [exact H|]. split; [reflexivity|].
  exact (proj1 (proj2 (htmlify_escapes_amp_again (lit "a &amp; /b/ <c>") H))).
Defined.

(** * The three markers together *)

(** C6, the claim as the spec words it fails.  On the block as it is
    written, ["/a/ *b* =c="], the code pass finds no space after the last
    [=] and there is no code span; and on the block with a space before and
    after, [line.strip()] removes the two outer spaces, so that the output
    holds neither the emphasis span with a space on its left nor the code
    span with a space on its right. *)
Lemma three_markers_not_each_padded :
  htmlify (lit "/a/ *b* =c=")
  = Ok (lit "<em>a</em>   <strong>b</strong>  =c=<br>" ++ [c_nl])
  /\ count tag_code (lit "<em>a</em>   <strong>b</strong>  =c=<br>" ++ [c_nl]) = O
  /\ htmlify (lit " /a/ *b* =c= ")
     = Ok (lit "<em>a</em>   <strong>b</strong>  <code>c</code><br>" ++ [c_nl])
  /\ count (lit " <em>a</em> ")
       (lit "<em>a</em>   <strong>b</strong>  <code>c</code><br>" ++ [c_nl]) = O
  /\ count (lit " <code>c</code> ")
       (lit "<em>a</em>   <strong>b</strong>  <code>c</code><br>" ++ [c_nl]) = O.
Proof. repeat split. Qed.

(** C6, amended.  On [" /a/ *b* =c= "], the block with one space before and
    one after, the emphasis pass, then the strong pass, then the code pass
    give the three spans, each between two spaces; the output holds the
    emphasis span, the strong span and the code span in that order with
    those spaces between them, [line.strip()] having removed the space on
    the left of the first and on the right of the last.  The passes run in
    that order on every input, over the whole block: on [" *a/b* c/"] the
    emphasis span is found before the strong one and not the other way
    round, on ["x*a*=c=*b*"] and ["/a/=c=/b/"] the code pass meets the spaces
    the earlier passes put in, and on ["/a\nb/"] the emphasis span runs over
    the line end. *)
Theorem htmlify_three_markers :
  (let text := lit " /a/ *b* =c= " in
   let t1 := sub em_pat (escape (lstrip_stars text)) in
   let t2 := sub strong_pat t1 in
   let t3 := sub code_pat t2 in
   t1 = lit "  <em>a</em>  *b* =c= "
   /\ t2 = lit "  <em>a</em>   <strong>b</strong>  =c= "
   /\ t3 = lit "  <em>a</em>   <strong>b</strong>  <code>c</code> "
   /\ htmlify text = render t3
   /\ htmlify text =
        Ok (lit "<em>a</em>   <strong>b</strong>  <code>c</code><br>" ++ [c_nl])
   /\ htmlify text =
        Ok (lit "<em>a</em> " ++ lit " " ++ lit " <strong>b</strong> "
            ++ lit " <code>c</code>" ++ lit "<br>" ++ [c_nl]))
  /\ (forall text,
        htmlify text =
          render (sub code_pat (sub strong_pat (sub em_pat (escape (lstrip_stars text))))))
  /\ (htmlify (lit " *a/b* c/")
      = Ok (lit "<strong>a <em>b</strong>  c</em><br>" ++ [c_nl])
      /\ sub em_pat (sub strong_pat (lit " *a/b* c/"))
         = lit "  <strong>a <em>b<</em> strong>  c/")
  /\ (htmlify (lit "x*a*=c=*b*")
      = Ok (lit "x <strong>a</strong> <code>c</code> <strong>b</strong><br>" ++ [c_nl])
      /\ sub strong_pat (sub code_pat (sub em_pat (lit "x*a*=c=*b*")))
         = lit "x <strong>a</strong> =c= <strong>b</strong> ")
  /\ (htmlify (lit "/a/=c=/b/")
      = Ok (lit "<em>a</em> <code>c</code> <em>b</em><br>" ++ [c_nl])
      /\ sub strong_pat (sub em_pat (sub code_pat (lit "/a/=c=/b/")))
         = lit " <em>a</em> =c= <em>b</em> ")
  /\ htmlify (lit "/a" ++ [c_nl] ++ lit "b/")
     = Ok (lit "<em>a<br>" ++ [c_nl] ++ lit "b</em><br>" ++ [c_nl]).
Proof. repeat split. Qed.

(** * Code spans, one pattern at a time *)

(** ** Cutting a text that holds a given piece *)

Lemma app_eq_app' (a b c d : str) :
  a ++ b = c ++ d ->
  exists l, (a = c ++ l /\ d = l ++ b) \/ (c = a ++ l /\ b = l ++ d).
Proof.
  revert c. induction a as [|x a IH]; intros c E.
  - exists c. right. now split.
  - destruct c as [|y c]; cbn [app] in E.
    + exists (x :: a). left. now split.
    + inversion E; subst. destruct (IH c H1) as [l [[-> ->] | [-> ->]]];
        exists l; [left | right]; now split.
Qed.

(** Where [W] lies when the text is cut at a character it does not hold. *)
Lemma app_eq_cut (W : str) d : forall P Q u v,
  ~ In d W -> P ++ W ++ Q = u ++ d :: v ->
  (exists Q1, u = P ++ W ++ Q1 /\ Q = Q1 ++ d :: v)
  \/ (exists P1, v = P1 ++ W ++ Q /\ P = u ++ d :: P1).
Proof.
  induction P as [|x P IH]; intros Q u v Hd E; cbn [app] in E.
  - destruct (app_eq_across _ _ _ _ _ E Hd) as (u' & -> & ->).
    left. now exists u'.
  - destruct u as [|y u]; cbn [app] in E; inversion E; subst.
    + right. now exists P.
    + destruct (IH Q u v Hd H1) as [(Q1 & -> & ->) | (P1 & -> & ->)].
      * left. now exists Q1.
      * right. now exists P1.
Qed.

Lemma app_eq_cut_lit (W : str) : W <> [] -> forall d,
  d <> [] -> (forall x, In x d -> ~ In x W) ->
  forall P Q u v, P ++ W ++ Q = u ++ d ++ v ->
  (exists Q1, u = P ++ W ++ Q1 /\ Q = Q1 ++ d ++ v)
  \/ (exists P1, v = P1 ++ W ++ Q /\ P = u ++ d ++ P1).
Proof.
  intros HW. induction d as [|x d IH]; intros Hne Hd P Q u v E; [contradiction|].
  cbn [app] in E.
  destruct (app_eq_cut W x P Q u (d ++ v) (Hd x (or_introl eq_refl)) E)
    as [(Q1 & -> & ->) | (P1 & E1 & ->)].
  - left. now exists Q1.
  - destruct d as [|y d].
    + right. exists P1. cbn [app] in *. now split.
    + symmetry in E1.
      destruct (IH ltac:(discriminate) (fun z Hz => Hd z (or_intror Hz)) P1 Q [] v E1)
        as [(Q1 & E2 & _) | (P2 & -> & ->)].
      * symmetry in E2. apply app_eq_nil in E2. destruct E2 as [_ E2].
        apply app_eq_nil in E2. destruct E2 as [E2 _]. contradiction.
      * right. exists P2. split; [reflexivity|]. cbn [app]. reflexivity.
Qed.

(** ** A piece that a pass carries over, with its place *)

Lemma nil_of_app3 (P W Q : str) : W <> [] -> [] <> P ++ W ++ Q.
Proof.
  intros HW E. symmetry in E. apply app_eq_nil in E. destruct E as [_ E].
  apply app_eq_nil in E. destruct E as [E _]. contradiction.
Qed.

Lemma lastb_suffix (S : char -> bool) a b :
  b <> [] -> lastb S (a ++ b) = lastb S b.
Proof. intros Hb. rewrite lastb_app. now destruct b. Qed.

Lemma headb_prefix (S : char -> bool) a b :
  a <> [] -> headb S (a ++ b) = headb S a.
Proof. intros Ha. rewrite headb_app. now destruct a. Qed.

(** The first character of [re.sub]'s result, when the text does not start
    with a match. *)
Lemma sub_headb_false (S : char -> bool) p o ol s :
  p_open p = o :: ol -> S o = true -> headb S s = false -> headb S (sub p s) = false.
Proof.
  intros Eo So H. destruct s as [|x s]; [now rewrite sub_nil|].
  destruct (match_at p (x :: s)) as [[run rest]|] eqn:E.
  - apply match_at_sound in E. destruct E as (E & _ & _). rewrite Eo in E.
    cbn [app] in E. inversion E; subst. cbn [headb] in H. congruence.
  - now rewrite (sub_skip _ _ _ E).
Qed.

(** [re.sub] copies a piece [W] that holds no character of the pattern's
    literals.  What stands before it holds as many [z] after the pass as
    before, when the pattern and the template hold none; a piece at the
    start of the text stays there; and a neighbour of the piece that is no
    [S] character, where the pattern's literals start and end with one, is
    still its neighbour. *)
Lemma sub_keeps p W z (S : char -> bool) o ol :
  W <> [] -> p_open p = o :: ol -> p_close p <> [] -> r_left p <> [] ->
  (forall x, In x (p_open p ++ p_close p) -> ~ In x W) ->
  occ z (p_open p) = O -> occ z (p_close p) = O ->
  occ z (r_left p) = O -> occ z (r_right p) = O ->
  S o = true -> lastb S (p_open p) = true ->
  headb S (p_close p) = true -> lastb S (p_close p) = true ->
  forall s P Q, s = P ++ W ++ Q ->
  exists A C, sub p s = A ++ W ++ C /\ occ z A = occ z P
              /\ (P = [] <-> A = [])
              /\ (lastb S P = false -> lastb S A = false)
              /\ (headb S Q = false -> headb S C = false).
Proof.
  intros HW Eo Hc Hrl Hav Zo Zc Zl Zr So Lo Hcl Lc s.
  assert (Ho : p_open p <> []) by (rewrite Eo; discriminate).
  apply (sub_rect' p (fun s out => forall P Q, s = P ++ W ++ Q ->
    exists A C, out = A ++ W ++ C /\ occ z A = occ z P
                /\ (P = [] <-> A = [])
                /\ (lastb S P = false -> lastb S A = false)
                /\ (headb S Q = false -> headb S C = false))).
  - intros P Q E. now apply nil_of_app3 in E.
  - intros x s0 E IH P Q E'. destruct P as [|y P]; cbn [app] in E'.
    + exists [], (sub p Q). rewrite <- (sub_skip _ _ _ E), E'.
      rewrite (sub_through p o ol W Q Eo);
        [|apply Hav; rewrite Eo; now left].
      repeat split; auto. apply (sub_headb_false S p o ol Q Eo So).
    + inversion E'; subst.
      destruct (IH P Q eq_refl) as (A & C & -> & HA & HP & HL & HC).
      exists (y :: A), C. repeat split; try discriminate; [| |exact HC].
      * change (y :: A) with ([y] ++ A). change (y :: P) with ([y] ++ P).
        now rewrite !occ_app, HA.
      * intros H. destruct P as [|y' P].
        -- rewrite (proj1 HP eq_refl). exact H.
        -- destruct A as [|a A]; [discriminate (proj2 HP eq_refl)|].
           cbn [lastb] in H |- *. now apply HL.
  - intros s0 run rest E IH P Q E'. apply match_at_sound in E. destruct E as (-> & _ & _).
    destruct (app_eq_cut_lit W HW (p_open p) Ho
                (fun x Hx => Hav x (in_or_app _ _ _ (or_introl Hx)))
                P Q [] _ (eq_sym E')) as [(Q1 & E1 & _) | (P1 & E1 & ->)].
    + now apply nil_of_app3 in E1.
    + cbn [app] in *.
      destruct (app_eq_cut_lit W HW (p_close p) Hc
                  (fun x Hx => Hav x (in_or_app _ _ _ (or_intror Hx)))
                  P1 Q run rest (eq_sym E1)) as [(Q1 & -> & ->) | (P2 & E2 & ->)].
      * exists (r_left p ++ P1), (Q1 ++ r_right p ++ sub p rest).
        split; [now rewrite <- !app_assoc|].
        split; [rewrite !occ_app, Zo, Zl; reflexivity|].
        split; [split; intros H; apply app_eq_nil in H; destruct H; contradiction|].
        split.
        -- destruct P1 as [|a P1].
           ++ rewrite !app_nil_r. congruence.
           ++ rewrite !lastb_suffix by discriminate. auto.
        -- destruct Q1 as [|a Q1]; [|auto].
           cbn [app]. rewrite headb_prefix by exact Hc. congruence.
      * destruct (IH P2 Q E2) as (A & C & -> & HA & HP & HL & HC).
        exists (r_left p ++ run ++ r_right p ++ A), C.
        split; [now rewrite <- !app_assoc|].
        split; [rewrite !occ_app, Zo, Zl, Zr, Zc, HA; reflexivity|].
        split; [split; intros H; apply app_eq_nil in H; destruct H; contradiction|].
        split; [|exact HC].
        destruct P2 as [|a P2].
        -- rewrite !app_nil_r, !app_assoc. rewrite lastb_suffix by exact Hc. congruence.
        -- destruct A as [|a' A]; [discriminate (proj2 HP eq_refl)|].
           rewrite !app_assoc. rewrite !lastb_suffix by discriminate. exact HL.
Qed.
(** ** The three steps before the code pass *)

Lemma drop_while_app_stop f z (P rest : str) :
  f z = false -> drop_while f (P ++ z :: rest) = drop_while f P ++ z :: rest.
Proof.
  intros Hz. induction P as [|x P IH]; cbn [app drop_while].
  - now rewrite Hz.
  - destruct (f x); [exact IH | reflexivity].
Qed.

Lemma lastb_drop_while (S : char -> bool) f P :
  lastb S P = false -> lastb S (drop_while f P) = false.
Proof.
  induction P as [|x P IH]; [auto|]. intros H. cbn [drop_while].
  destruct (f x); [|exact H]. apply IH. destruct P; [reflexivity | exact H].
Qed.

Lemma lastb_snoc (S : char -> bool) P a : lastb S (P ++ [a]) = S a.
Proof. now rewrite lastb_suffix by discriminate. Qed.

(** The last character of an escaped text: the one of the text, or the
    semicolon of an entity. *)
Lemma escape_lastb (S : char -> bool) P :
  S c_semi = false -> lastb S P = false -> lastb S (escape P) = false.
Proof.
  intros Hs. destruct P as [|x P] using rev_ind; [auto|]. clear IHP.
  rewrite lastb_snoc, escape_app, escape_one. intros Hx.
  rewrite lastb_suffix by apply esc1_nonempty. unfold esc1.
  repeat match goal with |- context [if ?b then _ else _] => destruct b end;
    cbn [lit lastb]; try exact Hs.
  cbn. exact Hx.
Qed.

Lemma plain_run_facts r :
  plain_run r = true ->
  r <> [] /\ headb is_sp r = false /\ lastb is_sp r = false
  /\ Forall (fun x => marker x = false) r.
Proof.
  destruct r as [|x r]; [discriminate|]. unfold plain_run.
  rewrite !andb_true_iff, !negb_true_iff, forallb_forall.
  intros [[H1 H2] H3]. repeat split; [discriminate | exact H1 | exact H2 |].
  apply Forall_forall. intros y Hy. now apply negb_true_iff, H3.
Qed.

Lemma escape_keeps (P : char -> Prop) :
  Forall P (lit "&amp;") -> Forall P (lit "&lt;") -> Forall P (lit "&gt;") ->
  Forall P (lit "&quot;") -> Forall P (lit "&#x27;") ->
  forall s, Forall P s -> Forall P (escape s).
Proof.
  intros Ha Hl Hg Hq Hp. induction 1 as [|x s Hx Hs IH]; [constructor|].
  rewrite escape_cons. apply Forall_app. split; [|exact IH]. unfold esc1.
  destruct (x =? c_amp); [exact Ha|]. destruct (x =? c_lt); [exact Hl|].
  destruct (x =? c_gt); [exact Hg|]. destruct (x =? c_quot); [exact Hq|].
  destruct (x =? c_apos); [exact Hp|]. now constructor.
Qed.

Lemma escape_nonempty s : s <> [] -> escape s <> [].
Proof.
  destruct s as [|x s]; [contradiction|]. intros _. rewrite escape_cons.
  intros E. apply app_eq_nil in E. destruct E as [E _].
  now apply esc1_nonempty in E.
Qed.

(** Escaping keeps a run plain. *)
Lemma plain_run_escape r : plain_run r = true -> plain_run (escape r) = true.
Proof.
  intros H. destruct (plain_run_facts r H) as (Hne & Hh & Hl & Hm).
  pose proof (escape_nonempty r Hne) as Hne'.
  unfold plain_run. destruct (escape r) as [|y e] eqn:Ee; [contradiction|].
  rewrite <- Ee. rewrite !andb_true_iff, !negb_true_iff. repeat split.
  - destruct (headb is_sp (escape r)) eqn:E; [|reflexivity].
    apply (escape_headb is_eq is_sp) in E; [congruence|].
    repeat split; repeat constructor.
  - now apply escape_lastb.
  - apply forallb_forall. apply Forall_forall.
    apply (escape_keeps (fun x => negb (marker x) = true));
      try (repeat constructor).
    revert Hm. apply Forall_impl. intros x Hx. now rewrite Hx.
Qed.

Lemma lastb_weaken (S S' : char -> bool) a :
  (forall x, S' x = true -> S x = true) -> lastb S a = false -> lastb S' a = false.
Proof.
  intros HS. induction a as [|x a IH]; [auto|]. cbn [lastb].
  destruct a; [|exact IH]. intros H. destruct (S' x) eqn:E; [|reflexivity].
  apply HS in E. congruence.
Qed.

Lemma headb_weaken (S S' : char -> bool) a :
  (forall x, S' x = true -> S x = true) -> headb S a = false -> headb S' a = false.
Proof.
  intros HS. destruct a as [|x a]; [auto|]. cbn [headb]. intros H.
  destruct (S' x) eqn:E; [|reflexivity]. apply HS in E. congruence.
Qed.

Lemma is_sp_spacing x : is_sp x = true -> spacing x = true.
Proof. unfold is_sp, spacing. now intros ->. Qed.

(** The block as the code pass receives it: a pattern with a plain run is
    still there, after as many [=] as before; where it had a neighbour
    other than a space, [/] and [*], or none, it has no space there. *)
Lemma before_code_pass P r Q :
  plain_run r = true ->
  exists A C,
    sub strong_pat (sub em_pat (escape (lstrip_stars (P ++ c_eq :: r ++ c_eq :: Q))))
    = A ++ c_eq :: escape r ++ c_eq :: C
    /\ occ c_eq A = occ c_eq P
    /\ (lastb spacing P = false -> lastb is_sp A = false)
    /\ (headb spacing Q = false -> headb is_sp C = false).
Proof.
  intros H. apply plain_run_escape in H.
  destruct (plain_run_facts _ H) as (Hne & Hh & Hl & Hm).
  set (W := c_eq :: escape r ++ [c_eq]).
  assert (HW : W <> []) by discriminate.
  assert (Hav : forall p, p = em_pat \/ p = strong_pat ->
                forall x, In x (p_open p ++ p_close p) -> ~ In x W).
  { intros p Hp x Hx Hin.
    assert (Hx' : x = c_slash \/ x = c_star)
      by (destruct Hp as [-> | ->]; cbn in Hx; intuition).
    assert (Hw : marker x = false \/ x = c_eq).
    { destruct Hin as [<-|Hin]; [now right|]. apply in_app_or in Hin.
      destruct Hin as [Hin|[<-|[]]]; [left | now right].
      rewrite Forall_forall in Hm. now apply Hm. }
    destruct Hx' as [-> | ->], Hw as [Hw|Hw]; discriminate. }
  unfold lstrip_stars. rewrite drop_while_app_stop by reflexivity.
  change (c_eq :: r ++ c_eq :: Q) with ([c_eq] ++ r ++ [c_eq] ++ Q).
  rewrite !escape_app. change (escape [c_eq]) with [c_eq].
  set (P1 := escape (drop_while (N.eqb c_star) P)).
  destruct (sub_keeps em_pat W c_eq spacing c_slash [] HW eq_refl
              ltac:(discriminate) ltac:(discriminate) (Hav _ (or_introl eq_refl))
              eq_refl eq_refl eq_refl eq_refl eq_refl eq_refl eq_refl eq_refl
              (P1 ++ W ++ escape Q) P1 (escape Q) eq_refl)
    as (A1 & C1 & E1 & O1 & _ & L1 & H1).
  destruct (sub_keeps strong_pat W c_eq spacing c_star [] HW eq_refl
              ltac:(discriminate) ltac:(discriminate) (Hav _ (or_intror eq_refl))
              eq_refl eq_refl eq_refl eq_refl eq_refl eq_refl eq_refl eq_refl
              (A1 ++ W ++ C1) A1 C1 eq_refl)
    as (A2 & C2 & E2 & O2 & _ & L2 & H2).
  exists A2, C2. split; [|split; [|split]].
  - replace (P1 ++ [c_eq] ++ escape r ++ [c_eq] ++ escape Q)
      with (P1 ++ W ++ escape Q)
      by (unfold W; cbn [app]; now rewrite <- app_assoc).
    rewrite E1, E2. unfold W. cbn [app]. now rewrite <- app_assoc.
  - rewrite O2, O1. unfold P1.
    rewrite escape_occ by reflexivity. now apply drop_while_occ.
  - intros HP.
    assert (Hs : lastb spacing A2 = false).
    { apply L2, L1. apply escape_lastb; [reflexivity|].
      now apply lastb_drop_while. }
    revert Hs. apply lastb_weaken, is_sp_spacing.
  - intros HQ. apply (headb_weaken spacing); [apply is_sp_spacing|].
    apply H2, H1.
    destruct (headb spacing (escape Q)) eqn:E; [|reflexivity].
    apply (escape_headb is_eq spacing entities_quiet_after) in E. congruence.
Qed.
(** ** The code pass around a pattern it cannot take *)

(** The code pass copies a text in which no [=] follows a space and which
    does not end with a space, whatever comes after it. *)
Lemma code_pass_skips (w b : str) :
  nopairs is_sp is_eq w = true -> lastb is_sp w = false ->
  sub code_pat (w ++ b) = w ++ sub code_pat b.
Proof.
  induction w as [|x w IH]; [reflexivity|]. intros Hn Hl.
  apply nopairs_cons in Hn. destruct Hn as [Hx Hn]. cbn [app].
  destruct (match_at code_pat (x :: w ++ b)) as [[run rest]|] eqn:E.
  - exfalso. apply match_at_sound in E. destruct E as (E & _ & _).
    cbn in E. inversion E; subst x. destruct w as [|y w].
    + discriminate Hl.
    + cbn [app] in H1. inversion H1; subst y. apply Hx. now split.
  - rewrite (sub_skip _ _ _ E). f_equal. apply IH; [exact Hn|].
    destruct w; [reflexivity | exact Hl].
Qed.

Lemma nopairs_none (A B : char -> bool) s :
  Forall (fun x => B x = false) s -> nopairs A B s = true.
Proof.
  induction 1 as [|x s Hx Hs IH]; [reflexivity|]. apply nopairs_cons.
  split; [|exact IH]. intros [_ H]. destruct Hs; cbn [headb] in H; congruence.
Qed.

Lemma marker_eq x : marker x = false -> x <> c_eq /\ is_eq x = false.
Proof.
  unfold marker, is_eq. intros H.
  apply orb_false_elim in H. destruct H as [_ H]. split; [|exact H].
  intros ->. discriminate.
Qed.

(** Where the code pass meets [=r=] with no space on one outside, or a
    space at either end of [r], it matches neither across nor inside it:
    the pass works on what stands before and on what stands after, and copies
    the pattern. *)
Lemma code_pass_copies (r C : str) :
  r <> [] -> Forall (fun x => marker x = false) r ->
  headb is_sp r = false -> lastb is_sp r = false ->
  forall A, lastb is_sp A = false \/ headb is_sp C = false ->
  sub code_pat (A ++ c_eq :: r ++ c_eq :: C)
  = sub code_pat A ++ c_eq :: r ++ c_eq :: sub code_pat C.
Proof.
  intros Hne Hm Hh Hl.
  assert (Hr : Forall (fun x => x <> p_excl code_pat) r).
  { revert Hm. apply Forall_impl. intros x Hx. now apply marker_eq. }
  assert (Hin : ~ In c_eq r).
  { intros H. rewrite Forall_forall in Hr. now apply (Hr _ H). }
  set (B := c_eq :: r ++ c_eq :: C).
  assert (HB : sub code_pat B = c_eq :: r ++ c_eq :: sub code_pat C).
  { unfold B.
    replace (c_eq :: r ++ c_eq :: C) with ((c_eq :: r ++ [c_eq]) ++ C)
      by (cbn [app]; now rewrite <- app_assoc).
    rewrite code_pass_skips.
    - cbn [app]. now rewrite <- app_assoc.
    - apply nopairs_cons. split; [intros [H _]; discriminate|].
      apply nopairs_app. split; [|split; [reflexivity|]].
      + apply nopairs_none. revert Hm. apply Forall_impl.
        intros x Hx. now apply marker_eq.
      + intros [H _]. congruence.
    - change (c_eq :: r ++ [c_eq]) with ((c_eq :: r) ++ [c_eq]).
      now rewrite lastb_snoc. }
  intros A. apply (sub_rect' code_pat (fun A out =>
    lastb is_sp A = false \/ headb is_sp C = false ->
    sub code_pat (A ++ B) = out ++ c_eq :: r ++ c_eq :: sub code_pat C)).
  - intros _. exact HB.
  - intros x A' E IH Hc.
    assert (Hc' : lastb is_sp A' = false \/ headb is_sp C = false).
    { destruct Hc as [Hc|Hc]; [left | now right].
      destruct A'; [reflexivity | exact Hc]. }
    cbn [app]. rewrite <- (IH Hc').
    apply sub_skip.
    destruct (match_at code_pat (x :: A' ++ B)) as [[run rest]|] eqn:E'; [|reflexivity].
    exfalso. apply match_at_sound in E'. destruct E' as (E' & Hrun & Hf).
    cbn in E'. injection E' as Ex E1. subst x.
    assert (Hrin : ~ In c_eq run).
    { intros H. rewrite Forall_forall in Hf. now apply (Hf _ H). }
    destruct A' as [|y A']; cbn [app] in E1; unfold B in E1.
    + (* the space right before the pattern *)
      injection E1 as E2. symmetry in E2.
      destruct (app_eq_across run c_eq _ _ _ E2 Hrin) as (a' & -> & Ea).
      destruct a' as [|z a']; cbn [app] in Ea.
      * injection Ea as Ea. subst C. destruct Hc as [Hc|Hc]; discriminate.
      * injection Ea as Ez Ea. subst z. apply Hin. apply in_or_app. right. now left.
    + (* an opening delimiter before the pattern *)
      injection E1 as Ey E2. subst y. symmetry in E2.
      destruct (app_eq_across run c_eq _ _ _ E2 Hrin) as (a' & -> & Ea).
      destruct a' as [|z a']; cbn [app] in Ea.
      * injection Ea as Ea. destruct r as [|z r]; [contradiction|]. cbn [app] in Ea.
        injection Ea as Ez _. subst z. discriminate Hh.
      * injection Ea as Ez Ea. subst z.
        destruct a' as [|z a']; cbn [app] in Ea; [discriminate Ea|].
        injection Ea as Ez Ea. subst z.
        change (32 :: 61 :: run ++ 61 :: 32 :: a')
          with (p_open code_pat ++ run ++ p_close code_pat ++ a') in E.
        rewrite (match_at_complete code_pat [c_sp] run a' eq_refl Hrun Hf) in E.
        discriminate E.
  - intros s run rest E IH Hc.
    pose proof (match_at_sound _ _ _ _ E) as (-> & Hrun & Hf).
    rewrite <- !app_assoc.
    rewrite (sub_match code_pat _ run (rest ++ B)).
    + rewrite IH; [reflexivity|].
      destruct Hc as [Hc|Hc]; [left | now right].
      destruct rest as [|x rest]; [reflexivity|].
      rewrite !app_assoc in Hc. now rewrite lastb_suffix in Hc by discriminate.
    + now apply (match_at_complete code_pat [c_sp]).
Qed.
(** ** A piece that survives the line loop *)

Lemma lastb_rev (S : char -> bool) w : lastb S w = headb S (rev w).
Proof.
  destruct w as [|a w] using rev_ind; [reflexivity|].
  now rewrite lastb_snoc, rev_unit.
Qed.

Section Solid.
(** A piece of one line that [strip] cannot shorten and that is not the
    hyphen of a list item. *)
Variable w : str.
Hypothesis w_head : match w with y :: _ => isspace y = false /\ y <> c_dash | [] => False end.
Hypothesis w_last : lastb isspace w = false.
Hypothesis w_line : ~ In c_nl w.

Lemma strip_keeps line : contains w line -> contains w (strip line).
Proof.
  intros H. unfold strip, rstrip, lstrip.
  rewrite <- (rev_involutive w). apply contains_rev.
  apply drop_while_contains.
  - rewrite lastb_rev in w_last. destruct (rev w) as [|z v] eqn:E; [|exact w_last].
    apply (f_equal (@rev char)) in E. rewrite rev_involutive in E.
    rewrite E in w_head. exact w_head.
  - apply contains_rev. apply drop_while_contains; [|exact H].
    destruct w; [exact w_head | apply w_head].
Qed.

Lemma item_keeps line :
  is_list_item line = true -> contains w line -> contains w (item_text line).
Proof.
  intros Hl H. apply strip_keeps in H. rewrite (strip_item line Hl) in H.
  destruct H as (pre & post & E). destruct pre as [|x pre]; cbn [app] in E.
  - destruct w as [|y w']; [contradiction|]. cbn [app] in E.
    injection E as E _. destruct w_head as [_ Hd]. congruence.
  - injection E as _ E. now exists pre, post.
Qed.

Lemma step_keeps st line st' :
  contains w line -> step st line = Ok st' -> contains w (out_text st').
Proof.
  intros H E. destruct (is_list_item line) eqn:Ei.
  - destruct (step_item st line Ei) as (st1 & Hadj & E1).
    rewrite E1 in E. apply Ok_inj in E. subst st'. cbn [out_text].
    apply contains_app_r, contains_app_r, contains_app_l.
    now apply item_keeps.
  - rewrite (step_plain st line Ei) in E. apply Ok_inj in E. subst st'.
    cbn [out_text].
    apply contains_app_r, contains_app_r, contains_app_l.
    now apply strip_keeps.
Qed.

Lemma loop_keeps : forall lines st st',
  Exists (contains w) lines -> loop st lines = Ok st' -> contains w (out_text st').
Proof.
  induction lines as [|line lines IH]; intros st st' Hex E; cbn [loop] in E.
  - inversion Hex.
  - destruct (step st line) as [st1|e] eqn:E1; [|discriminate]. cbn [bind] in E.
    inversion Hex; subst.
    + destruct (loop_appends _ _ _ E) as [d ->].
      apply contains_app_l. now apply (step_keeps st line st1).
    + now apply (IH st1 st').
Qed.

Lemma render_keeps text out :
  contains w text -> render text = Ok out -> contains w out.
Proof.
  intros H E. unfold render in E.
  destruct (loop _ (split_nl text)) as [st|e] eqn:El; [|discriminate].
  cbn [bind] in E. rewrite drain_ok in E. cbn [bind out_text] in E.
  apply Ok_inj in E. subst out. apply contains_app_l.
  apply loop_keeps in El; [exact El|].
  apply join_contains.
  - destruct w; [contradiction | discriminate].
  - exact w_line.
  - now rewrite split_nl_join.
Qed.
End Solid.
(** ** Code spans *)

(** C8, the claim as the spec words it fails.  In ["/a/=c=/b/"] no [=] has
    a space on its outside, both stand next to a slash; the two emphasis
    replacements bring their own spaces, and the code pass then replaces
    [=c=].  In ["a =x (= b=)"] the run of the pattern between the
    parentheses starts with a space, and its first [=] closes a code span
    that began before it; in ["(=b =) y= z"] the run ends with a space, and
    the last [=] of the pattern opens a code span; in ["x =y(=/usr/bin=)"]
    the run holds slashes, the emphasis pass puts a space after the first
    [=], and again that [=] closes a code span. *)
Lemma code_span_between_markers_is_replaced :
  nopairs is_sp is_eq (lit "/a/=c=/b/") = true
  /\ nopairs is_eq is_sp (lit "/a/=c=/b/") = true
  /\ sub strong_pat (sub em_pat (escape (lstrip_stars (lit "/a/=c=/b/"))))
     = lit " <em>a</em> =c= <em>b</em> "
  /\ htmlify (lit "/a/=c=/b/")
     = Ok (lit "<em>a</em> <code>c</code> <em>b</em><br>" ++ [c_nl])
  /\ count tag_code (lit "<em>a</em> <code>c</code> <em>b</em><br>" ++ [c_nl]) = 1%nat
  /\ htmlify (lit "a =x (= b=)") = Ok (lit "a <code>x (</code> b=)<br>" ++ [c_nl])
  /\ htmlify (lit "(=b =) y= z") = Ok (lit "(=b <code>) y</code> z<br>" ++ [c_nl])
  /\ htmlify (lit "x =y(=/usr/bin=)")
     = Ok (lit "x <code>y(</code> <em>usr</em> bin=)<br>" ++ [c_nl]).
Proof. repeat split. Qed.

(** C8, amended.  The code pattern matches exactly a text that starts with
    a space, [=], a non-empty run without [=], [=] and a space, in the text
    the pass is given, which is the block after the emphasis and the strong
    pass.  Take any block [P ++ "=" ++ r ++ "=" ++ Q] whose run [r] is not
    empty, holds no [/], [*] or [=] and has no space at either end.  When
    [P] is empty or ends with a character other than a space, [/] and [*]
    (a newline, a parenthesis, ...), or [Q] is empty or starts with such a
    character, the pattern reaches the code pass with as many [=] before it
    as in the block, and the pass copies it: it works on what stands before
    and on what stands after, so whatever else the block holds, [htmlify]
    returns, and its output holds the pattern unreplaced when the run is on
    one line.  When no [=] of the block directly follows a space, a slash or
    a star, or none is directly followed by one of these, the output has no
    code tag at all. *)
Theorem code_span_needs_spaces :
  (forall s run rest,
     match_at code_pat s = Some (run, rest) <->
     s = lit " =" ++ run ++ lit "= " ++ rest
     /\ run <> [] /\ Forall (fun x => x <> c_eq) run)
  /\ (forall P r Q,
        plain_run r = true ->
        lastb spacing P = false \/ headb spacing Q = false ->
        exists A C out,
          sub strong_pat (sub em_pat
            (escape (lstrip_stars (P ++ c_eq :: r ++ c_eq :: Q))))
          = A ++ c_eq :: escape r ++ c_eq :: C
          /\ occ c_eq A = occ c_eq P
          /\ inline (escape (lstrip_stars (P ++ c_eq :: r ++ c_eq :: Q)))
             = sub code_pat A ++ c_eq :: escape r ++ c_eq :: sub code_pat C
          /\ htmlify (P ++ c_eq :: r ++ c_eq :: Q) = Ok out
          /\ (~ In c_nl r -> contains (c_eq :: escape r ++ [c_eq]) out))
  /\ (forall text,
        nopairs spacing is_eq text = true \/ nopairs is_eq spacing text = true ->
        htmlify text = render (sub strong_pat (sub em_pat (escape (lstrip_stars text))))
        /\ exists out, htmlify text = Ok out /\ count tag_code out = O)
  /\ htmlify (lit "=c= x") = Ok (lit "=c= x<br>" ++ [c_nl])
  /\ htmlify (lit "x =c=") = Ok (lit "x =c=<br>" ++ [c_nl])
  /\ htmlify (lit "x" ++ [c_nl] ++ lit "=c= y")
     = Ok (lit "x<br>" ++ [c_nl] ++ lit "=c= y<br>" ++ [c_nl])
  /\ htmlify (lit "(=c=)") = Ok (lit "(=c=)<br>" ++ [c_nl])
  /\ htmlify (lit "a =b= c (=d=)")
     = Ok (lit "a <code>b</code> c (=d=)<br>" ++ [c_nl])
  /\ htmlify (lit "=c= x =d= y") = Ok (lit "=c= x <code>d</code> y<br>" ++ [c_nl]).
Proof.
  split; [|split; [|split; [|repeat split]]].
  - intros s run rest. split.
    + apply match_at_sound.
    + intros (-> & Hne & Hf).
      now apply (match_at_complete code_pat [c_sp]).
  - intros P r Q Hr Hn.
    destruct (before_code_pass P r Q Hr) as (A & C & E & Ho & HA & HC).
    destruct (htmlify_returns (P ++ c_eq :: r ++ c_eq :: Q)) as [out Hout].
    pose proof (plain_run_escape r Hr) as Hr'.
    destruct (plain_run_facts _ Hr') as (Hne & Hh & Hl & Hm).
    assert (Ei : inline (escape (lstrip_stars (P ++ c_eq :: r ++ c_eq :: Q)))
                 = sub code_pat A ++ c_eq :: escape r ++ c_eq :: sub code_pat C).
    { unfold inline. rewrite E. apply code_pass_copies; try assumption.
      destruct Hn as [Hn|Hn]; [left; now apply HA | right; now apply HC]. }
    exists A, C, out. repeat split; try assumption.
    intros Hnl. unfold htmlify in Hout. rewrite Ei in Hout.
    apply (render_keeps (c_eq :: escape r ++ [c_eq])) in Hout; [exact Hout | | | |].
    + split; [reflexivity | discriminate].
    + change (c_eq :: escape r ++ [c_eq]) with ((c_eq :: escape r) ++ [c_eq]).
      now rewrite lastb_snoc.
    + intros [H|H]; [discriminate|]. apply in_app_or in H.
      destruct H as [H|[H|[]]]; [|discriminate].
      assert (F : Forall (fun x => x <> c_nl) (escape r)).
      { apply escape_keeps; try (repeat constructor; discriminate).
        apply Forall_forall. intros x Hx ->. contradiction. }
      rewrite Forall_forall in F. exact (F _ H eq_refl).
    + apply contains_app_r. exists [], (sub code_pat C).
      cbn [app]. now rewrite <- app_assoc.
  - intros text H.
    assert (E : htmlify text
                = render (sub strong_pat (sub em_pat (escape (lstrip_stars text))))).
    { unfold htmlify, inline.
      destruct H as [H|H];
        [rewrite (code_pass_idle_before text H)
        | rewrite (code_pass_idle_after text H)]; reflexivity. }
    split; [exact E|].
    destruct (htmlify_returns text) as [out Ho]. exists out. split; [exact Ho|].
    rewrite E in Ho. apply (render_tagged (em_tags ++ strong_tags)) in Ho.
    + apply (count_code_zero ((em_tags ++ strong_tags) ++ block_tags));
        [intros t Ht; cbv in Ht |- *; tauto | exact Ho].
    + intros t Ht; cbv in Ht |- *; tauto.
    + apply (strong_tagged em_tags);
        [intros t Ht; cbv in Ht |- *; tauto ..
        | apply em_tagged; [apply incl_refl | apply escape_tagged]].
Qed.

Lemma code_span_needs_spaces_witness :
  match_at code_pat (lit " =c= d") = Some (lit "c", lit "d")
  /\ plain_run (lit "d") = true
  /\ (lastb spacing (lit "a =b= c (") = false \/ headb spacing (lit ")") = false)
  /\ (exists A C out,
        sub strong_pat (sub em_pat (escape (lstrip_stars
          (lit "a =b= c (" ++ c_eq :: lit "d" ++ c_eq :: lit ")"))))
        = A ++ c_eq :: escape (lit "d") ++ c_eq :: C
        /\ occ c_eq A = occ c_eq (lit "a =b= c (")
        /\ inline (escape (lstrip_stars
             (lit "a =b= c (" ++ c_eq :: lit "d" ++ c_eq :: lit ")")))
           = sub code_pat A ++ c_eq :: escape (lit "d") ++ c_eq :: sub code_pat C
        /\ htmlify (lit "a =b= c (" ++ c_eq :: lit "d" ++ c_eq :: lit ")") = Ok out
        /\ (~ In c_nl (lit "d") -> contains (c_eq :: escape (lit "d") ++ [c_eq]) out))
  /\ (nopairs spacing is_eq (lit "x" ++ [c_nl] ++ lit "=c= y") = true
      \/ nopairs is_eq spacing (lit "x" ++ [c_nl] ++ lit "=c= y") = true)
  /\ exists out, htmlify (lit "x" ++ [c_nl] ++ lit "=c= y") = Ok out
                 /\ count tag_code out = O.
Proof.
  split; [|split; [|split; [|split; [|split]]]].
  - apply (proj1 code_span_needs_spaces (lit " =c= d") (lit "c") (lit "d")).
    split; [reflexivity|]. split; [discriminate|].
    repeat constructor; discriminate.
  - reflexivity.
  - left. reflexivity.
  - exact (proj1 (proj2 code_span_needs_spaces)
             (lit "a =b= c (") (lit "d") (lit ")") eq_refl (or_introl eq_refl)).
  - left. reflexivity.
  - exact (proj2 (proj1 (proj2 (proj2 code_span_needs_spaces))
                    (lit "x" ++ [c_nl] ++ lit "=c= y") (or_introl eq_refl))).
Defined.
